(** * Threadiverse crawler: a shallow embedding and its verified properties

    The development follows the crawler source: the string helpers
    ([normalizeInstance], [isSupportedSoftware]), the recency window of
    [utils/date.ts], the response shapes (zod schemas), the request handler
    with its dispatcher, the snapshot writer and the timers of [crawl()].

    JavaScript strings are modelled as [string], read as sequences of code
    units below 256; numbers that the crawler compares (user counts,
    millisecond instants) are integers in [Z]. *)

From Stdlib Require Import ZArith Lia Bool List Ascii String Permutation Sorted.
From stdpp Require Import base decidable gmap strings.
Import ListNotations.

Local Open Scope Z_scope.
Set Warnings "-register-all".

(** ** JavaScript string primitives *)

Module JsString.

(** [String.prototype.trim] strips WhiteSpace and LineTerminator code
    points; below 256 these are TAB, LF, VT, FF, CR, SP and NBSP. *)
Definition isWhiteSpace (c : ascii) : bool :=
  let n := nat_of_ascii c in
  ((9 <=? n) && (n <=? 13))%nat || (n =? 32)%nat || (n =? 160)%nat.

Definition isSlash (c : ascii) : bool := Ascii.eqb c "/"%char.

Fixpoint dropLeading (p : ascii -> bool) (s : string) : string :=
  match s with
  | EmptyString => EmptyString
  | String c r => if p c then dropLeading p r else s
  end.

(** Removes the longest suffix whose characters all satisfy [p]. *)
Fixpoint dropTrailing (p : ascii -> bool) (s : string) : string :=
  match s with
  | EmptyString => EmptyString
  | String c r =>
      match dropTrailing p r with
      | EmptyString => if p c then EmptyString else String c EmptyString
      | r' => String c r'
      end
  end.

Definition trim (s : string) : string :=
  dropTrailing isWhiteSpace (dropLeading isWhiteSpace s).

Definition startsWith (s p : string) : bool := String.prefix p s.

Fixpoint lastChar (s : string) : option ascii :=
  match s with
  | EmptyString => None
  | String c EmptyString => Some c
  | String _ r => lastChar r
  end.

Definition endsWithChar (p : ascii -> bool) (s : string) : bool :=
  match lastChar s with
  | Some c => p c
  | None => false
  end.

Fixpoint anyChar (p : ascii -> bool) (s : string) : bool :=
  match s with
  | EmptyString => false
  | String c r => p c || anyChar p r
  end.

Definition lowerChar (c : ascii) : ascii :=
  let n := nat_of_ascii c in
  if ((65 <=? n) && (n <=? 90))%nat
     || ((192 <=? n) && (n <=? 222) && negb (n =? 215))%nat
  then ascii_of_nat (n + 32) else c.

Fixpoint toLowerCase (s : string) : string :=
  match s with
  | EmptyString => EmptyString
  | String c r => String (lowerChar c) (toLowerCase r)
  end.

(** A JavaScript string is truthy unless it is empty. *)
Definition truthy (s : string) : bool :=
  match s with EmptyString => false | _ => true end.

End JsString.
Import JsString.

(** ** Address normalizer *)

(** [instance.replace(/\/+$/, ...)] with the empty replacement: every
    slash at the end of the string is removed. *)
Definition stripTrailingSlashes (s : string) : string := dropTrailing isSlash s.

Definition normalizeInstance (instance : string) : string :=
  let instance := trim instance in
  let instance :=
    if negb (startsWith instance "http") then "https://" +:+ instance else instance in
  stripTrailingSlashes instance.

Definition isSupportedSoftware (software : string) : bool :=
  let s := toLowerCase (trim software) in
  if String.eqb s "lemmy" then true
  else if String.eqb s "piefed" then true
  else false.


(** ** Recency window ([utils/date.ts]) *)

(** Instants are milliseconds since the epoch.  [parseISO] of date-fns is a
    library function: it is a parameter of the model, [None] standing for an
    Invalid Date. *)
Definition MS_PER_DAY : Z := 86400000.

(** [subDays] of date-fns, taken in UTC (calendar days of 24 hours). *)
Definition subDays (date amount : Z) : Z := date - amount * MS_PER_DAY.

Record Interval := { start : Z; end_ : Z }.

(** [isWithinInterval]: the two bounds are put in order and compared
    inclusively; an Invalid Date compares false with everything. *)
Definition isWithinInterval (date : option Z) (interval : Interval) : bool :=
  match date with
  | None => false
  | Some time =>
      let startTime := Z.min (start interval) (end_ interval) in
      let endTime := Z.max (start interval) (end_ interval) in
      (startTime <=? time) && (time <=? endTime)
  end.

(** What the date module sees: the parser and the two clock readings taken by
    the two [new Date()] calls when the module is loaded. *)
Record DateModule := {
  parseISO : string -> option Z;
  loadClock1 : Z;
  loadClock2 : Z
}.

(** The module-level constant: evaluated once, at load time. *)
Definition ONE_MONTH_AGO (dm : DateModule) : Interval :=
  {| start := subDays (loadClock1 dm) 30; end_ := loadClock2 dm |}.

Definition dateLessThanOneMonthAgo (dm : DateModule) (date : string) : bool :=
  isWithinInterval (parseISO dm date) (ONE_MONTH_AGO dm).

(** The clock did not run backwards between the two readings. *)
Definition clockInOrder (dm : DateModule) : Prop := loadClock1 dm <= loadClock2 dm.

(** ** Response shapes (zod schemas) *)

Inductive json :=
| JNull
| JBool (b : bool)
| JNum (n : Z)
| JStr (s : string)
| JArr (items : list json)
| JObj (fields : list (string * json)).

Module Zod.

(** Property access on a parsed object; [None] is [undefined]. *)
Fixpoint prop (k : string) (fields : list (string * json)) : option json :=
  match fields with
  | [] => None
  | (k', v) :: rest => if String.eqb k k' then Some v else prop k rest
  end.

(** [z.object(...)] accepts objects only; its fields are then looked up. *)
Definition object (v : option json) : option (list (string * json)) :=
  match v with
  | Some (JObj fields) => Some fields
  | _ => None
  end.

Definition string_ (v : option json) : option string :=
  match v with
  | Some (JStr s) => Some s
  | _ => None
  end.

Definition boolean (v : option json) : option bool :=
  match v with
  | Some (JBool b) => Some b
  | _ => None
  end.

Definition number (v : option json) : option Z :=
  match v with
  | Some (JNum n) => Some n
  | _ => None
  end.

(** [.optional()]: [undefined] is accepted and kept. *)
Definition optional {A} (p : option json -> option A) (v : option json)
  : option (option A) :=
  match v with
  | None => Some None
  | Some _ => Some <$> p v
  end.

(** [.nullable().optional()]: [undefined] and [null] are both accepted; the
    two are not distinguished further. *)
Definition nullish {A} (p : option json -> option A) (v : option json)
  : option (option A) :=
  match v with
  | None | Some JNull => Some None
  | Some _ => Some <$> p v
  end.

Definition array {A} (p : option json -> option A) (v : option json)
  : option (list A) :=
  match v with
  | Some (JArr items) => mapM (fun item => p (Some item)) items
  | _ => None
  end.

End Zod.

Inductive Software := lemmy | piefed.

Definition softwareName (s : Software) : string :=
  match s with lemmy => "lemmy" | piefed => "piefed" end.

Record NodeInfo := { name : Software; version : string }.

Record Linked := {
  domain : string;
  software : option string;
  published : option string;
  updated : option string
}.

Record SiteV3 := {
  site_description : option string;
  site_icon : option string;
  registration_mode : string;
  private_instance : bool;
  users_active_month : Z
}.

(** [z.enum(["lemmy", "piefed"])] *)
Definition softwareEnum (v : option json) : option Software :=
  match v with
  | Some (JStr s) =>
      if String.eqb s "lemmy" then Some lemmy
      else if String.eqb s "piefed" then Some piefed
      else None
  | _ => None
  end.

Definition nodeInfoSchema (v : json) : option NodeInfo :=
  top ← Zod.object (Some v);
  sw ← Zod.object (Zod.prop "software" top);
  n ← softwareEnum (Zod.prop "name" sw);
  ver ← Zod.string_ (Zod.prop "version" sw);
  Some {| name := n; version := ver |}.

Definition linkedSchema (v : option json) : option Linked :=
  o ← Zod.object v;
  d ← Zod.string_ (Zod.prop "domain" o);
  s ← Zod.optional Zod.string_ (Zod.prop "software" o);
  p ← Zod.optional Zod.string_ (Zod.prop "published" o);
  u ← Zod.optional Zod.string_ (Zod.prop "updated" o);
  Some {| domain := d; software := s; published := p; updated := u |}.

(** The validated value is [res.federated_instances.linked]. *)
Definition federatedInstancesSchema (v : json) : option (list Linked) :=
  top ← Zod.object (Some v);
  fi ← Zod.object (Zod.prop "federated_instances" top);
  Zod.array linkedSchema (Zod.prop "linked" fi).

Definition lemmySiteV3 (v : json) : option SiteV3 :=
  top ← Zod.object (Some v);
  sv ← Zod.object (Zod.prop "site_view" top);
  site ← Zod.object (Zod.prop "site" sv);
  descr ← Zod.nullish Zod.string_ (Zod.prop "description" site);
  ico ← Zod.nullish Zod.string_ (Zod.prop "icon" site);
  ls ← Zod.object (Zod.prop "local_site" sv);
  mode ← Zod.string_ (Zod.prop "registration_mode" ls);
  priv ← Zod.boolean (Zod.prop "private_instance" ls);
  counts ← Zod.object (Zod.prop "counts" sv);
  mau ← Zod.number (Zod.prop "users_active_month" counts);
  Some {| site_description := descr; site_icon := ico; registration_mode := mode;
          private_instance := priv; users_active_month := mau |}.

Definition pieFedSiteV3 : json -> option SiteV3 := lemmySiteV3.

(** ** Result Store records *)

Record Instance := {
  url : string;
  host : string;
  description : option string;
  icon : option string;
  instSoftware : Software;
  registrationMode : string
}.

Definition MIN_MAU : Z := 20.

(** ** Recency and support filter of [explore] *)

(** [linked.updated ?? linked.published] *)
Definition lastActivity (linked : Linked) : option string :=
  match updated linked with
  | Some u => Some u
  | None => published linked
  end.

(** The predicate given to [filter]: [&&] over JavaScript truthiness. *)
Definition keepsLink (dm : DateModule) (linked : Linked) : bool :=
  match software linked with
  | None => false
  | Some sw =>
      truthy sw && isSupportedSoftware sw &&
      match lastActivity linked with
      | None => false
      | Some upd => truthy upd && dateLessThanOneMonthAgo dm upd
      end
  end.

(** The list handed to [requestQueue.addRequests]. *)
Definition exploreTargets (dm : DateModule) (linked : list Linked) : list string :=
  map (fun l => normalizeInstance (domain l)) (List.filter (keepsLink dm) linked).

(** ** Errors and the surrounding platform *)

Inductive JsError :=
| RequestFailed (cause : string)  (* the HTTP call rejected *)
| SyntaxError                     (* [JSON.parse] / [res.json()] *)
| ZodError                        (* [schema.parse] *)
| InvalidURL                      (* [new URL(...)] *)
| TaskTimeout                     (* the handler ran out of its time budget *)
| TimeoutError.                   (* [AbortSignal.timeout] fired *)

(** Library functions the crawler calls and that are parameters here: the
    date module above, the [host] getter of [new URL(s)] ([None] when the
    constructor throws) and the key under which the request queue files a
    request URL. *)
Record Platform := {
  dates : DateModule;
  urlHost : string -> option string;
  uniqueKey : string -> string
}.

(** One answer of [sendRequest]: the promise settles after [ms] milliseconds,
    either rejecting or resolving with a body; [body = None] is a text
    that [JSON.parse] rejects. *)
Inductive Reply :=
| Rejects (ms : Z) (cause : string)
| Responds (ms : Z) (body : option json).

Definition World := string -> Reply.

(** ** Frontier and visited ledger *)

Record Request := { reqUrl : string; retryCount : nat }.

(** Modelled from the spec: the request queue (crawlee's [RequestQueue], not
    part of the sources) is the Frontier together with the Visited Ledger,
    the set of every address ever enqueued; [tryEnqueue] is a no-op returning
    [false] on a known address and otherwise adds to both. *)
Record RequestQueue := { frontier : list Request; ledger : gset string }.

(** Modelled from the spec: [tryEnqueue(addr) -> bool] of the Frontier; the
    address is identified by the key the queue computes for it. *)
Definition tryEnqueue (pf : Platform) (addr : string) (q : RequestQueue)
  : bool * RequestQueue :=
  if decide (uniqueKey pf addr ∈ ledger q) then (false, q)
  else (true, {| frontier := frontier q ++ [{| reqUrl := addr; retryCount := 0 |}];
                 ledger := {[ uniqueKey pf addr ]} ∪ ledger q |}).

(** Modelled from the spec: [requestQueue.addRequests] passes each address,
    in order, to [tryEnqueue]. *)
Definition addRequests (pf : Platform) (addrs : list string) (q : RequestQueue)
  : RequestQueue :=
  fold_left (fun q addr => snd (tryEnqueue pf addr q)) addrs q.

(** ** The task monad: state, errors and the task clock *)

Record TaskState := {
  queue : RequestQueue;
  dataset : list Instance;
  elapsed : Z
}.

Definition Task (A : Type) : Type := TaskState -> (JsError + A) * TaskState.

Definition ret {A} (a : A) : Task A := fun ts => (inr a, ts).

Definition throw {A} (e : JsError) : Task A := fun ts => (inl e, ts).

Definition bind {A B} (m : Task A) (k : A -> Task B) : Task B :=
  fun ts =>
    match m ts with
    | (inl e, ts') => (inl e, ts')
    | (inr a, ts') => k a ts'
    end.

Declare Scope task_scope.
Delimit Scope task_scope with task.
Notation "'do' x <- m ; k" := (bind m (fun x => k))
  (at level 10, x name, m at level 100, k at level 200) : task_scope.
Notation "m ;; k" := (bind m (fun _ => k))
  (at level 100, k at level 200, right associativity) : task_scope.

Definition requestHandlerTimeoutSecs : Z := 10.
Definition maxRequestRetries : nat := 3.

(** Modelled from the spec: the per-task timeout aborts a still-running
    task.  A task is suspended only while it awaits; if its budget runs out
    during the wait the task ends there with [TaskTimeout]. *)
Definition await (ms : Z) : Task unit :=
  fun ts =>
    if requestHandlerTimeoutSecs * 1000 <=? elapsed ts + ms
    then (inl TaskTimeout,
          {| queue := queue ts; dataset := dataset ts;
             elapsed := requestHandlerTimeoutSecs * 1000 |})
    else (inr tt,
          {| queue := queue ts; dataset := dataset ts; elapsed := elapsed ts + ms |}).

(** [Dataset.pushData] appends one record. *)
Definition pushData (inst : Instance) : Task unit :=
  fun ts =>
    (inr tt, {| queue := queue ts; dataset := dataset ts ++ [inst];
                elapsed := elapsed ts |}).

(** ** The request handler *)

Section Handler.
Variable pf : Platform.
Variable sendRequest : World.

Local Open Scope task_scope.

Definition get {A} (url : string) (schema : json -> option A) : Task A :=
  match sendRequest url with
  | Rejects ms cause => await ms ;; throw (RequestFailed cause)
  | Responds ms body =>
      await ms ;;
      match body with
      | None => throw SyntaxError
      | Some parsed =>
          match schema parsed with
          | None => throw ZodError
          | Some data => ret data
          end
      end
  end.

Definition explore (res : list Linked) : Task unit :=
  fun ts =>
    (inr tt, {| queue := addRequests pf (exploreTargets (dates pf) res) (queue ts);
                dataset := dataset ts; elapsed := elapsed ts |}).

Definition requestHandler (requestUrl : string) : Task unit :=
  let instance := normalizeInstance requestUrl in
  match urlHost pf instance with
  | None => throw InvalidURL
  | Some host =>
      do nodeInfo <- get (instance +:+ "/nodeinfo/2.1") nodeInfoSchema;
      match name nodeInfo with
      | lemmy =>
          if startsWith (version nodeInfo) "1." then ret tt
          else
            do federatedInstances <-
              get (instance +:+ "/api/v3/federated_instances") federatedInstancesSchema;
            explore federatedInstances ;;
            do site <- get (instance +:+ "/api/v3/site") lemmySiteV3;
            if (MIN_MAU <=? users_active_month site) && negb (private_instance site)
            then pushData {| url := instance; host := host;
                             description := site_description site;
                             icon := site_icon site;
                             instSoftware := lemmy;
                             registrationMode := registration_mode site |}
            else ret tt
      | piefed =>
          do federatedInstances <-
            get (instance +:+ "/api/v3/federated_instances") federatedInstancesSchema;
          explore federatedInstances ;;
          do site <- get (instance +:+ "/api/v3/site") pieFedSiteV3;
          if (MIN_MAU <=? users_active_month site) && negb (private_instance site)
          then pushData {| url := instance; host := host;
                           description := site_description site;
                           icon := site_icon site;
                           instSoftware := piefed;
                           registrationMode := registration_mode site |}
          else ret tt
      end
  end.

End Handler.

(** ** The crawler loop *)

(** Modelled from the spec: the worker pool ([BasicCrawler.run] of crawlee,
    not part of the sources).  Each task processes one Frontier entry by
    invoking the request handler; a failed task is retried up to
    [maxRequestRetries] times, after which the entry is dropped.  [finished]
    and [failed] record the handled requests, [attempts] counts handler runs
    and indexes the state of the network met by each of them.  Tasks are run
    one at a time, in an order left to the scheduler. *)
Record Crawl := {
  requestQueue : RequestQueue;
  store : list Instance;
  finished : list string;
  failed : list string;
  attempts : nat
}.

(** Modelled from the spec: one task, from dequeuing [r] to retrying or
    dropping it. *)
Definition runTask (pf : Platform) (w : World) (r : Request)
    (others : list Request) (c : Crawl) : Crawl :=
  let ts0 := {| queue := {| frontier := others; ledger := ledger (requestQueue c) |};
                dataset := store c; elapsed := 0 |} in
  match requestHandler pf w (reqUrl r) ts0 with
  | (inr _, ts) =>
      {| requestQueue := queue ts; store := dataset ts;
         finished := finished c ++ [reqUrl r]; failed := failed c;
         attempts := S (attempts c) |}
  | (inl _, ts) =>
      if (retryCount r <? maxRequestRetries)%nat then
        {| requestQueue :=
             {| frontier := frontier (queue ts) ++
                            [{| reqUrl := reqUrl r; retryCount := S (retryCount r) |}];
                ledger := ledger (queue ts) |};
           store := dataset ts; finished := finished c; failed := failed c;
           attempts := S (attempts c) |}
      else
        {| requestQueue := queue ts; store := dataset ts;
           finished := finished c; failed := failed c ++ [reqUrl r];
           attempts := S (attempts c) |}
  end.

(** Modelled from the spec: the pool picks the [i]-th pending request;
    which one is up to the scheduler. *)
Definition dispatch (pf : Platform) (net : nat -> World) (i : nat) (c : Crawl)
  : option Crawl :=
  r ← frontier (requestQueue c) !! i;
  Some (runTask pf (net (attempts c)) r (delete i (frontier (requestQueue c))) c).

(** Modelled from the spec: [crawler.run(seeds)] enqueues the seeds into an
    empty queue. *)
Definition startCrawl (pf : Platform) (seeds : list string) : Crawl :=
  {| requestQueue := addRequests pf seeds {| frontier := []; ledger := ∅ |};
     store := []; finished := []; failed := []; attempts := 0 |}.

Inductive reachable (pf : Platform) (net : nat -> World) (seeds : list string)
  : Crawl -> Prop :=
| reach_start : reachable pf net seeds (startCrawl pf seeds)
| reach_step c i c' :
    reachable pf net seeds c ->
    dispatch pf net i c = Some c' ->
    reachable pf net seeds c'.

(** First-in first-out scheduling, for running the model. *)
Fixpoint run (pf : Platform) (net : nat -> World) (fuel : nat) (c : Crawl) : Crawl :=
  match fuel with
  | O => c
  | S fuel' =>
      match dispatch pf net 0 c with
      | None => c
      | Some c' => run pf net fuel' c'
      end
  end.

(** ** Snapshot writer *)

(** [_.sortBy(items, 'host')]: a stable sort, ascending in the code-unit
    order of the host strings. *)
Fixpoint insertByHost (x : Instance) (sorted : list Instance) : list Instance :=
  match sorted with
  | [] => [x]
  | y :: rest =>
      if String.leb (host x) (host y) then x :: sorted
      else y :: insertByHost x rest
  end.

Definition sortByHost (items : list Instance) : list Instance :=
  fold_right insertByHost [] items.

(** The two files of [public/v1]; each holds the JSON text of the array it
    is given, represented by that array. *)
Record Snapshot := {
  instances_json : list Instance;
  instances_min_json : list Instance
}.

Definition write (items : list Instance) : Snapshot :=
  let sorted := sortByHost items in
  {| instances_json := sorted; instances_min_json := sorted |}.

(** ** Timers of [crawl()] *)

Inductive Pool := Running | Aborted | Drained.

Inductive SnapshotKind := Periodic | Final.

(** [id2Active]: the 10 s interval is set; [id1Pending]: the 20 min timeout
    has neither fired nor been cleared; [resumed]: [await crawler.run(...)]
    has returned and the rest of [crawl()] has run. *)
Record CrawlProcess := {
  pool : Pool;
  id1Pending : bool;
  id2Active : bool;
  resumed : bool;
  items : list Instance;
  written : list (SnapshotKind * Snapshot)
}.

Inductive Event :=
| IntervalFires              (* 10 s have passed since the last tick *)
| DeadlineFires              (* 20 min have passed since the start *)
| FrontierDrains             (* queue empty and no task in flight *)
| RunReturns                 (* the promise of [crawler.run] resolves *)
| Pushes (inst : Instance).  (* a handler calls [Dataset.pushData] *)

Definition crawlStarted : CrawlProcess :=
  {| pool := Running; id1Pending := true; id2Active := true; resumed := false;
     items := []; written := [] |}.

Definition snapshot (kind : SnapshotKind) (p : CrawlProcess) : CrawlProcess :=
  {| pool := pool p; id1Pending := id1Pending p; id2Active := id2Active p;
     resumed := resumed p; items := items p;
     written := written p ++ [(kind, write (items p))] |}.

Definition isRunning (p : Pool) : bool :=
  match p with Running => true | _ => false end.

Definition react (e : Event) (p : CrawlProcess) : CrawlProcess :=
  match e with
  | IntervalFires =>
      if id2Active p then snapshot Periodic p else p
  | DeadlineFires =>
      if id1Pending p then
        (* clearInterval(id2); crawler.autoscaledPool.abort() *)
        {| pool := if isRunning (pool p) then Aborted else pool p;
           id1Pending := false; id2Active := false; resumed := resumed p;
           items := items p; written := written p |}
      else p
  | FrontierDrains =>
      if isRunning (pool p) then
        {| pool := Drained; id1Pending := id1Pending p; id2Active := id2Active p;
           resumed := resumed p; items := items p; written := written p |}
      else p
  | RunReturns =>
      if negb (isRunning (pool p)) && negb (resumed p) then
        (* clearTimeout(id1); write() *)
        snapshot Final
          {| pool := pool p; id1Pending := false; id2Active := id2Active p;
             resumed := true; items := items p; written := written p |}
      else p
  | Pushes inst =>
      {| pool := pool p; id1Pending := id1Pending p; id2Active := id2Active p;
         resumed := resumed p; items := items p ++ [inst]; written := written p |}
  end.

Definition reactAll (es : list Event) (p : CrawlProcess) : CrawlProcess :=
  fold_left (fun p e => react e p) es p.

(** ** [fetch] with a time limit ([utils/fetch.ts] and [cralwer.ts]) *)

Record Response := { status : Z; body : option json }.

(** How one [fetch] call behaves when left alone. *)
Inductive FetchBehaviour :=
| Settles (ms : Z) (r : Response)
| NetworkError (ms : Z) (cause : string)
| Hangs.

(** The network as seen by successive [fetch] calls: each call consumes the
    next behaviour; beyond the script nothing answers. *)
Definition Net := list (string -> FetchBehaviour).

Definition nextFetch (url : string) (net : Net) : FetchBehaviour * Net :=
  match net with
  | [] => (Hangs, [])
  | b :: rest => (b url, rest)
  end.

(** [fetch(url, { signal })] where the signal aborts after [limit] ms. *)
Definition fetchAbortingAt (limit : Z) (b : FetchBehaviour) : option (JsError + Response) :=
  match b with
  | Settles ms r => if ms <? limit then Some (inr r) else None
  | NetworkError ms cause => if ms <? limit then Some (inl (RequestFailed cause)) else None
  | Hangs => None
  end.



Module Cralwer.

(** [normalizeInstance] of [cralwer.ts]: no trailing-slash handling. *)
Definition normalizeInstance (instance : string) : string :=
  let instance := trim instance in
  if negb (startsWith instance "http") then "https://" +:+ instance else instance.

(** [get] of [cralwer.ts]: [fetch] with [AbortSignal.timeout(5000)], then
    [res.json()], then [schema.parse]; errors are rethrown. *)
Definition get {A} (url : string) (schema : json -> option A) (net : Net)
  : (JsError + A) * Net :=
  let '(b, net') := nextFetch url net in
  match fetchAbortingAt 5000 b with
  | None => (inl TimeoutError, net')
  | Some (inl err) => (inl err, net')
  | Some (inr res) =>
      match body res with
      | None => (inl SyntaxError, net')
      | Some parsed =>
          match schema parsed with
          | None => (inl ZodError, net')
          | Some data => (inr data, net')
          end
      end
  end.

End Cralwer.

(** ** Notions used in the statements *)

(** The middle step of [normalizeInstance]. *)
Definition withScheme (t : string) : string :=
  if negb (startsWith t "http") then "https://" +:+ t else t.

(** The window of the specification text: the trailing 30 days measured from
    the instant [now] at which the filter is evaluated. *)
Definition withinTrailingWindow (now t : Z) : bool :=
  (subDays now 30 <=? t) && (t <=? now).


(** The task state after waiting [ms] milliseconds. *)
Definition advance (ms : Z) (ts : TaskState) : TaskState :=
  {| queue := queue ts; dataset := dataset ts; elapsed := elapsed ts + ms |}.

(** The server answers [url] after [ms] milliseconds with a body that
    validates against [schema] as [data]. *)
Definition answers {A} (w : World) (url : string) (schema : json -> option A)
    (ms : Z) (data : A) : Prop :=
  0 <= ms /\ exists parsed, w url = Responds ms (Some parsed) /\ schema parsed = Some data.

(** The record pushed by the handler for a qualifying site. *)
Definition recordOf (instance hostname : string) (sw : Software) (site : SiteV3)
  : Instance :=
  {| url := instance; host := hostname; description := site_description site;
     icon := site_icon site; instSoftware := sw;
     registrationMode := registration_mode site |}.

(** The site itself when it passes the handler's test on user count and
    privacy, nothing otherwise. *)
Definition qualifying (site : SiteV3) : list SiteV3 :=
  if (MIN_MAU <=? users_active_month site) && negb (private_instance site)
  then [site] else [].

(** The major version number of a version string: the decimal digits before
    the first dot.  The handler itself only tests the prefix "1."; this reading
    of the version serves to state what it does for major versions 2 and
    up. *)
Definition digitValue (c : ascii) : option N :=
  let n := N_of_ascii c in
  if ((48 <=? n) && (n <=? 57))%N then Some (n - 48)%N else None.

Fixpoint leadingNumber (acc : N) (s : string) : option N :=
  match s with
  | EmptyString => Some acc
  | String c r =>
      if Ascii.eqb c "."%char then Some acc
      else match digitValue c with
           | Some d => leadingNumber (10 * acc + d)%N r
           | None => None
           end
  end.

Definition majorVersion (v : string) : option N :=
  match v with
  | EmptyString => None
  | String c _ => if Ascii.eqb c "."%char then None else leadingNumber 0 v
  end.

Definition pendingUrls (q : RequestQueue) : list string := reqUrl <$> frontier q.

(** The queue is in order with respect to the keys [extra] of the requests
    that are in progress or already handled: no key occurs twice among the
    pending requests and [extra], the ledger holds all of them, and no
    pending request has used more than its retries. *)
Definition queueOk (pf : Platform) (extra : list string) (q : RequestQueue) : Prop :=
  NoDup ((uniqueKey pf <$> pendingUrls q) ++ extra)
  /\ (forall k, k ∈ (uniqueKey pf <$> pendingUrls q) ++ extra -> k ∈ ledger q)
  /\ Forall (fun r => retryCount r <= maxRequestRetries)%nat (frontier q).

(** A Result Store record and the request that produced it. *)
Definition producedBy (pf : Platform) (inst : Instance) (requestUrl : string) : Prop :=
  url inst = normalizeInstance requestUrl /\
  urlHost pf (normalizeInstance requestUrl) = Some (host inst).

(** The invariant of the crawler loop. *)
Definition crawlOk (pf : Platform) (c : Crawl) : Prop :=
  queueOk pf (uniqueKey pf <$> (finished c ++ failed c)) (requestQueue c)
  /\ exists srcs, srcs `sublist_of` finished c /\
                  Forall2 (producedBy pf) (store c) srcs.

Definition hostOrder (a b : Instance) : Prop := String.le (host a) (host b).

(** The records of one host, in the order of the list. *)
Definition ofHost (h : string) (l : list Instance) : list Instance :=
  List.filter (fun i => String.eqb (host i) h) l.

(** ** Sample data for the examples *)

Module Sample.

(** [parseISO] on the few timestamps used below (UTC, milliseconds). *)
Definition isoTable (s : string) : option Z :=
  if String.eqb s "1970-01-01T00:00:00.000Z" then Some 0
  else if String.eqb s "1970-01-03T00:00:00.000Z" then Some 172800000
  else if String.eqb s "1970-01-31T00:00:00.000Z" then Some 2592000000
  else if String.eqb s "1970-02-01T00:05:00.000Z" then Some 2678700000
  else None.

(** The date module loaded at 1970-02-01T00:00:00.000Z. *)
Definition loadedFeb1 : DateModule :=
  {| parseISO := isoTable; loadClock1 := 2678400000; loadClock2 := 2678400000 |}.

Fixpoint untilSlash (s : string) : string :=
  match s with
  | EmptyString => EmptyString
  | String c r => if isSlash c then EmptyString else String c (untilSlash r)
  end.

(** The host of URLs of the form [http(s)://name] or [http(s)://name/path]
    in lower case, on which it agrees with [new URL(u).host]. *)
Definition simpleHost (u : string) : option string :=
  let rest :=
    if String.prefix "https://" u then Some (String.substring 8 (String.length u) u)
    else if String.prefix "http://" u then Some (String.substring 7 (String.length u) u)
    else None in
  match rest with
  | Some r => if truthy (untilSlash r) then Some (untilSlash r) else None
  | None => None
  end.

(** Requests are filed under their URL; on URLs of the form
    [http(s)://name] this is the key computed by the request queue. *)
Definition platform : Platform :=
  {| dates := loadedFeb1; urlHost := simpleHost; uniqueKey := fun u => u |}.

Definition nodeInfoBody (softwareName ver : string) : json :=
  JObj [("software", JObj [("name", JStr softwareName); ("version", JStr ver)])].

Definition peer (dom sw upd : string) : json :=
  JObj [("domain", JStr dom); ("software", JStr sw); ("updated", JStr upd)].

Definition peersBody (peers : list json) : json :=
  JObj [("federated_instances", JObj [("linked", JArr peers)])].

Definition siteBody (mau : Z) (priv : bool) : json :=
  JObj [("site_view",
         JObj [("site", JObj [("description", JNull)]);
               ("local_site", JObj [("registration_mode", JStr "Open");
                                    ("private_instance", JBool priv)]);
               ("counts", JObj [("users_active_month", JNum mau)])])].

Definition nowhere : World := fun _ => Rejects 100 "ENOTFOUND".

(** A server at [base] answering its three endpoints after 100 ms each;
    other URLs are looked up in [rest]. *)
Definition serve (base : string) (nodeInfo peers site : json) (rest : World) : World :=
  fun url =>
    if String.eqb url (base +:+ "/nodeinfo/2.1") then Responds 100 (Some nodeInfo)
    else if String.eqb url (base +:+ "/api/v3/federated_instances")
         then Responds 100 (Some peers)
    else if String.eqb url (base +:+ "/api/v3/site") then Responds 100 (Some site)
    else rest url.

Definition idle : TaskState :=
  {| queue := {| frontier := []; ledger := ∅ |}; dataset := []; elapsed := 0 |}.


Definition lemmyServer (ver : string) (mau : Z) (priv : bool) : World :=
  serve "https://a.example" (nodeInfoBody "lemmy" ver)
    (peersBody [peer "b.example" "lemmy" "1970-01-31T00:00:00.000Z"])
    (siteBody mau priv) nowhere.

Definition mastodonServer : World :=
  serve "https://m.example" (nodeInfoBody "mastodon" "4.2.0")
    (peersBody []) (siteBody 50 false) nowhere.

Definition recentPeer : Linked :=
  {| domain := "b.example"; software := Some "lemmy"; published := None;
     updated := Some "1970-01-03T00:00:00.000Z" |}.

Definition stalePeer : Linked :=
  {| domain := "b.example"; software := Some "lemmy"; published := None;
     updated := Some "1970-01-01T00:00:00.000Z" |}.

(** Active five minutes after the module was loaded. *)
Definition freshPeer : Linked :=
  {| domain := "b.example"; software := Some "lemmy"; published := None;
     updated := Some "1970-02-01T00:05:00.000Z" |}.

Definition inst (h : string) : Instance :=
  {| url := "https://" +:+ h; host := h; description := None; icon := None;
     instSoftware := lemmy; registrationMode := "Open" |}.

End Sample.

(** ** The earlier crawlee-based revision (second part of the crawler file) *)

Module Earlier.

(** What both site shapes of this revision yield. *)
Record SiteInfo := {
  siteDescription : option string;
  siteIcon : option string;
  siteRegistrationMode : string
}.

Definition lemmySiteV3 (v : json) : option SiteInfo :=
  top ← Zod.object (Some v);
  sv ← Zod.object (Zod.prop "site_view" top);
  site ← Zod.object (Zod.prop "site" sv);
  descr ← Zod.nullish Zod.string_ (Zod.prop "description" site);
  ico ← Zod.nullish Zod.string_ (Zod.prop "icon" site);
  ls ← Zod.object (Zod.prop "local_site" sv);
  mode ← Zod.string_ (Zod.prop "registration_mode" ls);
  Some {| siteDescription := descr; siteIcon := ico; siteRegistrationMode := mode |}.

Definition pieFedSiteV3 (v : json) : option SiteInfo :=
  top ← Zod.object (Some v);
  site ← Zod.object (Zod.prop "site" top);
  descr ← Zod.nullish Zod.string_ (Zod.prop "description" site);
  ico ← Zod.nullish Zod.string_ (Zod.prop "icon" site);
  mode ← Zod.string_ (Zod.prop "registration_mode" site);
  Some {| siteDescription := descr; siteIcon := ico; siteRegistrationMode := mode |}.

Definition normalizeInstance (instance : string) : string :=
  let instance := trim instance in
  if negb (startsWith instance "http") then "https://" +:+ instance else instance.

(** [requestHandlerTimeoutSecs: 10_000] *)
Definition requestHandlerTimeoutSecs : Z := 10000.

(** Modelled from the spec: the per-task timeout, as for the later revision
    but with this revision's budget. *)
Definition await (ms : Z) : Task unit :=
  fun ts =>
    if requestHandlerTimeoutSecs * 1000 <=? elapsed ts + ms
    then (inl TaskTimeout,
          {| queue := queue ts; dataset := dataset ts;
             elapsed := requestHandlerTimeoutSecs * 1000 |})
    else (inr tt,
          {| queue := queue ts; dataset := dataset ts; elapsed := elapsed ts + ms |}).

Section Handler.
Variable pf : Platform.
Variable sendRequest : World.

Local Open Scope task_scope.

Definition get {A} (url : string) (schema : json -> option A) : Task A :=
  match sendRequest url with
  | Rejects ms cause => await ms ;; throw (RequestFailed cause)
  | Responds ms body =>
      await ms ;;
      match body with
      | None => throw SyntaxError
      | Some parsed =>
          match schema parsed with
          | None => throw ZodError
          | Some data => ret data
          end
      end
  end.

(** The loop of [explore]: one [addRequests] call per link that passes. *)
Definition explore (res : list Linked) : Task unit :=
  fun ts =>
    (inr tt,
     {| queue := fold_left
                   (fun q linked =>
                      if keepsLink (dates pf) linked
                      then addRequests pf [normalizeInstance (domain linked)] q
                      else q)
                   res (queue ts);
        dataset := dataset ts; elapsed := elapsed ts |}).

(** The body of the [try] block. *)
Definition attempt (instance : string) : Task unit :=
  let instance := normalizeInstance instance in
  match urlHost pf instance with
  | None => throw InvalidURL
  | Some host =>
      do nodeInfo <- get (instance +:+ "/nodeinfo/2.1") nodeInfoSchema;
      match name nodeInfo with
      | lemmy =>
          if startsWith (version nodeInfo) "1." then ret tt
          else
            do federatedInstances <-
              get (instance +:+ "/api/v3/federated_instances") federatedInstancesSchema;
            explore federatedInstances ;;
            do site <- get (instance +:+ "/api/v3/site") lemmySiteV3;
            pushData {| url := instance; host := host;
                        description := siteDescription site;
                        icon := siteIcon site;
                        instSoftware := lemmy;
                        registrationMode := siteRegistrationMode site |}
      | piefed =>
          do federatedInstances <-
            get (instance +:+ "/api/v1/federated_instances") federatedInstancesSchema;
          explore federatedInstances ;;
          do site <- get (instance +:+ "/api/alpha/site") pieFedSiteV3;
          pushData {| url := instance; host := host;
                      description := siteDescription site;
                      icon := siteIcon site;
                      instSoftware := lemmy;
                      registrationMode := siteRegistrationMode site |}
      end
  end.

(** The module-level set [KNOWN] beside the state of the task. *)
Record State := { KNOWN : gset string; task : TaskState }.

(** [processQueueItem]: [KNOWN.add(instance)], then the [try] block whose
    [catch] swallows every error raised inside it.  The task timeout is
    raised by the pool outside the handler and is not caught. *)
Definition processQueueItem (instance : string) (st : State)
  : (JsError + unit) * State :=
  let known := {[ instance ]} ∪ KNOWN st in
  match attempt instance (task st) with
  | (inl TaskTimeout, ts) => (inl TaskTimeout, {| KNOWN := known; task := ts |})
  | (_, ts) => (inr tt, {| KNOWN := known; task := ts |})
  end.

End Handler.

(** [write] of this revision: the items as read from the dataset, in their
    order, as the text of [all-discovered.json]. *)
Definition write (items : list Instance) : list Instance := items.

Record CrawlProcess := {
  pool : Pool;
  id1Pending : bool;
  id2Active : bool;
  resumed : bool;
  items : list Instance;
  written : list (SnapshotKind * list Instance)
}.

Definition crawlStarted : CrawlProcess :=
  {| pool := Running; id1Pending := true; id2Active := true; resumed := false;
     items := []; written := [] |}.

Definition snapshot (kind : SnapshotKind) (p : CrawlProcess) : CrawlProcess :=
  {| pool := pool p; id1Pending := id1Pending p; id2Active := id2Active p;
     resumed := resumed p; items := items p;
     written := written p ++ [(kind, write (items p))] |}.

Definition react (e : Event) (p : CrawlProcess) : CrawlProcess :=
  match e with
  | IntervalFires =>
      if id2Active p then snapshot Periodic p else p
  | DeadlineFires =>
      if id1Pending p then
        (* crawler.autoscaledPool.abort() *)
        {| pool := if isRunning (pool p) then Aborted else pool p;
           id1Pending := false; id2Active := id2Active p; resumed := resumed p;
           items := items p; written := written p |}
      else p
  | FrontierDrains =>
      if isRunning (pool p) then
        {| pool := Drained; id1Pending := id1Pending p; id2Active := id2Active p;
           resumed := resumed p; items := items p; written := written p |}
      else p
  | RunReturns =>
      if negb (isRunning (pool p)) && negb (resumed p) then
        (* clearTimeout(id1); clearInterval(id2); write() *)
        snapshot Final
          {| pool := pool p; id1Pending := false; id2Active := false;
             resumed := true; items := items p; written := written p |}
      else p
  | Pushes inst =>
      {| pool := pool p; id1Pending := id1Pending p; id2Active := id2Active p;
         resumed := resumed p; items := items p ++ [inst]; written := written p |}
  end.

Definition reactAll (es : list Event) (p : CrawlProcess) : CrawlProcess :=
  fold_left (fun p e => react e p) es p.

End Earlier.

(** ** The script [cralwer.ts]: memoized handler and progress buffer *)

Module Visit.

(** What the promise of a call settles with: the body ends without a
    [return] when nothing fails, and the [catch] block returns [null]. *)
Inductive Settled := Undefined | Null.

Record Point := { known : Z; visited : Z }.

(** The module-level state of the script.  [queued] lists the arguments
    passed to [queue], in call order; [progress] is a JS array, whose slots
    may be holes. *)
Record Program := {
  KNOWN : gset string;
  cache : gmap string Settled;
  discovered : list Instance;
  queued : list string;
  net : Net;
  progress : list (option Point);
  i : Z
}.

Definition setNet (n : Net) (st : Program) : Program :=
  {| KNOWN := KNOWN st; cache := cache st; discovered := discovered st;
     queued := queued st; net := n; progress := progress st; i := i st |}.

Definition setQueued (q : list string) (st : Program) : Program :=
  {| KNOWN := KNOWN st; cache := cache st; discovered := discovered st;
     queued := q; net := net st; progress := progress st; i := i st |}.

Definition get {A} (url : string) (schema : json -> option A) (st : Program)
  : (JsError + A) * Program :=
  let '(r, net') := Cralwer.get url schema (net st) in (r, setNet net' st).

Section Handler.
Variable pf : Platform.

(** The loop of [explore]: one [queue] call per link that passes. *)
Definition explore (res : list Linked) (st : Program) : Program :=
  setQueued
    (fold_left
       (fun q linked =>
          if keepsLink (dates pf) linked
          then q ++ [Cralwer.normalizeInstance (domain linked)]
          else q)
       res (queued st))
    st.

(** Peer list, [explore], site; the pushes to [discovered] are commented
    out in the source, so the validated site is dropped. *)
Definition visitV3 (fedUrl siteUrl : string) (siteSchema : json -> option Earlier.SiteInfo)
    (st : Program) : (JsError + unit) * Program :=
  match get fedUrl federatedInstancesSchema st with
  | (inl e, st1) => (inl e, st1)
  | (inr federatedInstances, st1) =>
      match get siteUrl siteSchema (explore federatedInstances st1) with
      | (inl e, st2) => (inl e, st2)
      | (inr _, st2) => (inr tt, st2)
      end
  end.

(** The body of the [try] block. *)
Definition attempt (instance : string) (st : Program) : (JsError + unit) * Program :=
  let instance := Cralwer.normalizeInstance instance in
  match urlHost pf instance with
  | None => (inl InvalidURL, st)
  | Some _ =>
      match get (instance +:+ "/nodeinfo/2.1") nodeInfoSchema st with
      | (inl e, st1) => (inl e, st1)
      | (inr nodeInfo, st1) =>
          match name nodeInfo with
          | lemmy =>
              if startsWith (version nodeInfo) "1." then (inr tt, st1)
              else visitV3 (instance +:+ "/api/v3/federated_instances")
                     (instance +:+ "/api/v3/site") Earlier.lemmySiteV3 st1
          | piefed =>
              visitV3 (instance +:+ "/api/v1/federated_instances")
                (instance +:+ "/api/alpha/site") Earlier.pieFedSiteV3 st1
          end
      end
  end.

(** [_.memoize(async instance => ...)]: the cache is keyed by the argument
    as passed; on a miss the new promise is stored under that key. *)
Definition processQueueItem (instance : string) (st : Program) : Settled * Program :=
  match cache st !! instance with
  | Some settled => (settled, st)
  | None =>
      let '(r, st1) :=
        attempt instance
          {| KNOWN := {[ instance ]} ∪ KNOWN st; cache := cache st;
             discovered := discovered st; queued := queued st; net := net st;
             progress := progress st; i := i st |} in
      let settled := match r with inl _ => Null | inr _ => Undefined end in
      (settled,
       {| KNOWN := KNOWN st1; cache := <[instance := settled]> (cache st1);
          discovered := discovered st1; queued := queued st1; net := net st1;
          progress := progress st1; i := i st1 |})
  end.

End Handler.

(** [arr[k] = v] on a JS array: a write past the end extends the array,
    leaving holes in between. *)
Definition assign {A} (k : nat) (v : A) (arr : list (option A)) : list (option A) :=
  if (k <? length arr)%nat then <[k := Some v]> arr
  else arr ++ replicate (k - length arr) None ++ [Some v].

(** [i++] on a JS number: exact below 2^53, where adding one rounds back. *)
Definition increment (n : Z) : Z := if n <? 2 ^ 53 then n + 1 else n.

(** [reportProgress] up to the call of the chart library. *)
Definition reportProgress (st : Program) : Program :=
  {| KNOWN := KNOWN st; cache := cache st; discovered := discovered st;
     queued := queued st; net := net st;
     progress :=
       assign (Z.to_nat (i st mod 100))
         {| known := Z.of_nat (size (KNOWN st));
            visited := Z.of_nat (length (discovered st)) |}
         (progress st);
     i := increment (i st) |}.

(** The two series handed to [asciichart.plot]; [map] keeps holes. *)
Definition series (st : Program) : list (option Z) * list (option Z) :=
  (map (option_map visited) (progress st),
   map (option_map (fun p => known p - visited p)) (progress st)).

(** The script as loaded, before its two [queue] calls. *)
Definition loaded (n : Net) : Program :=
  {| KNOWN := ∅; cache := ∅; discovered := []; queued := []; net := n;
     progress := [Some {| known := 0; visited := 0 |}]; i := 0 |}.

(** What happens after loading: the queue hands an address to the handler,
    or a frame of [frameLoop] reports progress. *)
Inductive Event := Runs (instance : string) | Frame.

Definition step (pf : Platform) (st : Program) (e : Event) : Program :=
  match e with
  | Runs instance => snd (processQueueItem pf instance st)
  | Frame => reportProgress st
  end.

Definition run (pf : Platform) (es : list Event) (st : Program) : Program :=
  fold_left (step pf) es st.

(** The addresses handed to the handler by [es]. *)
Definition addresses (es : list Event) : list string :=
  omap (fun e => match e with Runs a => Some a | Frame => None end) es.

(** The number of frames in [es]. *)
Definition frames (es : list Event) : nat :=
  length (List.filter (fun e => match e with Frame => true | Runs _ => false end) es).

End Visit.

(** ** Notions used in the further properties *)

(** A piefed server of the earlier revision's kind: peer list under
    [/api/v1], site under [/api/alpha]. *)
Definition pieFedServer (base : string) (peers site : json) : World :=
  fun url =>
    if String.eqb url (base +:+ "/nodeinfo/2.1")
    then Responds 100 (Some (Sample.nodeInfoBody "piefed" "1.2.0"))
    else if String.eqb url (base +:+ "/api/v1/federated_instances")
         then Responds 100 (Some peers)
    else if String.eqb url (base +:+ "/api/alpha/site") then Responds 100 (Some site)
    else Rejects 100 "ENOTFOUND".

(** Whatever [url] answers, it is no body that validates against [schema]:
    the request is rejected, or the body is not JSON, or it has another
    shape. *)
Definition unusable {A} (w : World) (url : string) (schema : json -> option A) : Prop :=
  forall ms parsed, w url = Responds ms (Some parsed) -> schema parsed = None.

(** An address as [normalizeInstance] leaves it. *)
Definition normalized (addr : string) : Prop :=
  startsWith addr "http" = true /\ endsWithChar isSlash addr = false.

Definition isFinal (k : SnapshotKind) : bool :=
  match k with Final => true | Periodic => false end.

(** Numbers of final and of periodic snapshots written so far. *)
Definition finals (p : CrawlProcess) : nat :=
  length (List.filter (fun w => isFinal (fst w)) (written p)).

Definition periodics (p : CrawlProcess) : nat :=
  length (List.filter (fun w => negb (isFinal (fst w))) (written p)).

(** What one run of the [try] block may change. *)
Record attemptFrame (pf : Platform) (st st' : Visit.Program) : Prop := {
  frame_KNOWN : Visit.KNOWN st' = Visit.KNOWN st;
  frame_cache : Visit.cache st' = Visit.cache st;
  frame_discovered : Visit.discovered st' = Visit.discovered st;
  frame_progress : Visit.progress st' = Visit.progress st;
  frame_i : Visit.i st' = Visit.i st;
  frame_net : exists k, (k <= 3)%nat /\ Visit.net st' = drop k (Visit.net st);
  frame_queued :
    exists links,
      Forall (fun l => keepsLink (dates pf) l = true) links
      /\ Visit.queued st'
         = Visit.queued st ++ map (fun l => Cralwer.normalizeInstance (domain l)) links
}.

(** The progress buffer after [f] reports, while nothing has been pushed to
    [discovered]. *)
Definition progressInv (f : Z) (st : Visit.Program) : Prop :=
  Visit.discovered st = []
  /\ Visit.i st = Z.min f (2 ^ 53)
  /\ length (Visit.progress st) = Z.to_nat (Z.max 1 (Z.min f 100))
  /\ Forall (fun o => exists p, o = Some p /\ Visit.visited p = 0) (Visit.progress st).

(** * Properties *)

(** ** String primitives *)

Lemma append_cons (c : ascii) (s t : string) : String c s +:+ t = String c (s +:+ t).
Proof. reflexivity. Qed.

Lemma length_append (s t : string) :
  String.length (s +:+ t) = (String.length s + String.length t)%nat.
Proof.
  induction s as [|c s IH]; [reflexivity|].
  rewrite append_cons. simpl. now rewrite IH.
Qed.

Lemma append_empty_r (s : string) : s +:+ EmptyString = s.
Proof.
  induction s as [|c s IH]; [reflexivity|].
  rewrite append_cons. now rewrite IH.
Qed.

Section DropTrailing.
Variable p : ascii -> bool.

Lemma dropTrailing_cons_keep c r :
  p c = false -> dropTrailing p (String c r) = String c (dropTrailing p r).
Proof.
  intros Hc. simpl. destruct (dropTrailing p r); [now rewrite Hc | reflexivity].
Qed.

Lemma dropTrailing_is_prefix s : exists t, s = dropTrailing p s +:+ t.
Proof.
  induction s as [|c r [t IH]]; [now exists EmptyString|].
  simpl. destruct (dropTrailing p r) as [|c' r'] eqn:E.
  - destruct (p c).
    + now exists (String c r).
    + exists t. simpl. now rewrite IH at 1.
  - exists t. simpl. now rewrite IH at 1.
Qed.

Lemma dropTrailing_no_trailing s : endsWithChar p (dropTrailing p s) = false.
Proof.
  unfold endsWithChar.
  induction s as [|c r IH]; [reflexivity|].
  simpl. destruct (dropTrailing p r) as [|c' r'] eqn:E.
  - destruct (p c) eqn:Hc; simpl; [reflexivity | exact Hc].
  - exact IH.
Qed.

Lemma dropTrailing_fixed s : endsWithChar p s = false -> dropTrailing p s = s.
Proof.
  unfold endsWithChar.
  induction s as [|c r IH]; [reflexivity|].
  simpl. destruct r as [|c' r'].
  - simpl. intros ->. reflexivity.
  - intros H. rewrite (IH H). reflexivity.
Qed.

Lemma dropTrailing_idem s : dropTrailing p (dropTrailing p s) = dropTrailing p s.
Proof. apply dropTrailing_fixed, dropTrailing_no_trailing. Qed.

Lemma dropTrailing_keeps_prefix q s :
  anyChar p q = false ->
  String.prefix q s = true -> String.prefix q (dropTrailing p s) = true.
Proof.
  revert s. induction q as [|a q IH]; intros s Hq Hs.
  - now destruct (dropTrailing p s).
  - destruct s as [|b r]; [discriminate|].
    simpl in Hq. apply orb_false_iff in Hq as [Ha Hq].
    simpl in Hs. destruct (ascii_dec a b) as [->|]; [|discriminate].
    rewrite dropTrailing_cons_keep by exact Ha.
    simpl. destruct (ascii_dec b b); [|congruence]. now apply IH.
Qed.

Lemma dropTrailing_same_length s :
  String.length (dropTrailing p s) = String.length s -> dropTrailing p s = s.
Proof.
  destruct (dropTrailing_is_prefix s) as [t Ht]. intros Hlen.
  rewrite Ht in Hlen at 2. rewrite length_append in Hlen.
  destruct t; [|simpl in Hlen; lia].
  rewrite Ht at 2. now rewrite append_empty_r.
Qed.

Lemma dropTrailing_length_le s :
  (String.length (dropTrailing p s) <= String.length s)%nat.
Proof.
  destruct (dropTrailing_is_prefix s) as [t Ht].
  rewrite Ht at 2. rewrite length_append. lia.
Qed.

End DropTrailing.




Lemma dropLeading_head (p : ascii -> bool) (c : ascii) (r : string) :
  p c = false -> dropLeading p (String c r) = String c r.
Proof. intros H. simpl. now rewrite H. Qed.

(** ** Address normalizer *)

Lemma normalizeInstance_unfold x :
  normalizeInstance x = dropTrailing isSlash (withScheme (trim x)).
Proof. reflexivity. Qed.

Lemma withScheme_http t : startsWith (withScheme t) "http" = true.
Proof.
  unfold withScheme. destruct (startsWith t "http") eqn:E; simpl; [exact E | reflexivity].
Qed.

Lemma http_first_char y :
  startsWith y "http" = true -> dropLeading isWhiteSpace y = y.
Proof.
  intros H. destruct y as [|c r]; [discriminate|].
  unfold startsWith in H.
  change (String.prefix "http" (String c r))
    with (if ascii_dec "h" c then String.prefix "ttp" r else false) in H.
  destruct (ascii_dec "h" c) as [<-|]; [now apply dropLeading_head | discriminate].
Qed.

Lemma normalizeInstance_http x : startsWith (normalizeInstance x) "http" = true.
Proof.
  rewrite normalizeInstance_unfold. unfold startsWith.
  apply dropTrailing_keeps_prefix; [reflexivity | apply withScheme_http].
Qed.

Lemma normalizeInstance_no_slash x : endsWithChar isSlash (normalizeInstance x) = false.
Proof. rewrite normalizeInstance_unfold. apply dropTrailing_no_trailing. Qed.

Lemma normalizeInstance_on_http y :
  startsWith y "http" = true ->
  normalizeInstance y = dropTrailing isSlash (dropTrailing isWhiteSpace y).
Proof.
  intros H. rewrite normalizeInstance_unfold. unfold trim.
  rewrite (http_first_char y H). unfold withScheme.
  assert (startsWith (dropTrailing isWhiteSpace y) "http" = true) as ->; [|reflexivity].
  unfold startsWith. now apply dropTrailing_keeps_prefix.
Qed.






Example normalize_bare : normalizeInstance " lemmy.world// " = "https://lemmy.world".
Proof. reflexivity. Qed.

Example normalize_empty : normalizeInstance EmptyString = "https:".
Proof. reflexivity. Qed.

(** The normalizer of [cralwer.ts] only trims and prefixes: it is
    idempotent but keeps trailing slashes. *)
Example cralwer_normalize_keeps_slash : Cralwer.normalizeInstance "a.example/" = "https://a.example/".
Proof. reflexivity. Qed.

(** ** Recency window *)

Lemma isWithinInterval_true_iff (d : option Z) (i : Interval) :
  start i <= end_ i ->
  isWithinInterval d i = true <-> exists t, d = Some t /\ start i <= t <= end_ i.
Proof.
  intros Hord. unfold isWithinInterval. destruct d as [t|].
  - rewrite andb_true_iff, !Z.leb_le, Z.min_l, Z.max_r by exact Hord. split.
    + intros [? ?]. exists t. auto.
    + intros (t' & [= <-] & ? & ?). auto.
  - split; [discriminate | intros (t & [=] & _)].
Qed.

Lemma dateLessThanOneMonthAgo_true_iff (dm : DateModule) (date : string) :
  clockInOrder dm ->
  dateLessThanOneMonthAgo dm date = true <->
  exists t, parseISO dm date = Some t /\
            loadClock1 dm - 30 * 86400000 <= t <= loadClock2 dm.
Proof.
  intros Hord. unfold dateLessThanOneMonthAgo. rewrite isWithinInterval_true_iff; [reflexivity|].
  unfold clockInOrder in Hord. simpl. unfold subDays, MS_PER_DAY. lia.
Qed.

(** C10: the recency check is membership in a closed interval fixed by the two
    clock readings taken, in order, when the date module is loaded -- from 30
    days before the first reading to the second reading, that is
    [ref - 30 days, ref] when both readings are the same instant [ref] --
    so a timestamp that parses to an instant strictly after the end of that
    interval is rejected, however the clock has advanced since. *)
Theorem future_timestamp_is_rejected (dm : DateModule) (date : string) (t : Z) :
  clockInOrder dm ->
  parseISO dm date = Some t ->
  (loadClock2 dm < t -> dateLessThanOneMonthAgo dm date = false)
  /\ (dateLessThanOneMonthAgo dm date = true <->
      start (ONE_MONTH_AGO dm) <= t <= end_ (ONE_MONTH_AGO dm))
  /\ (forall ref, loadClock1 dm = ref -> loadClock2 dm = ref ->
      (dateLessThanOneMonthAgo dm date = true <-> ref - 30 * 86400000 <= t <= ref)).
Proof.
  intros Hord Hparse.
  assert (dateLessThanOneMonthAgo dm date = true <->
          loadClock1 dm - 30 * 86400000 <= t <= loadClock2 dm) as Hiff.
  { rewrite (dateLessThanOneMonthAgo_true_iff dm date Hord). split.
    - intros (t' & Ht' & H). rewrite Hparse in Ht'. now injection Ht' as <-.
    - intros H. now exists t. }
  split; [|split].
  - intros Hlt. apply not_true_is_false. rewrite Hiff. lia.
  - exact Hiff.
  - intros ref H1 H2. now rewrite Hiff, H1, H2.
Qed.

(** ** Recency and support filter *)

Lemma truthy_true_iff (s : string) : truthy s = true <-> s <> EmptyString.
Proof. destruct s; simpl; split; congruence. Qed.

Lemma keepsLink_true_iff (dm : DateModule) (linked : Linked) :
  clockInOrder dm ->
  keepsLink dm linked = true <->
  exists sw upd t,
    software linked = Some sw /\ sw <> EmptyString /\ isSupportedSoftware sw = true /\
    lastActivity linked = Some upd /\ upd <> EmptyString /\
    parseISO dm upd = Some t /\
    subDays (loadClock1 dm) 30 <= t <= loadClock2 dm.
Proof.
  intros Hord. unfold keepsLink. split.
  - destruct (software linked) as [sw|]; [|discriminate].
    destruct (lastActivity linked) as [upd|]; [|now rewrite andb_false_r].
    rewrite !andb_true_iff, !truthy_true_iff, (dateLessThanOneMonthAgo_true_iff dm _ Hord).
    intros [[? ?] [? (t & ? & ?)]]. exists sw, upd, t. unfold subDays, MS_PER_DAY. auto 10.
  - intros (sw & upd & t & -> & Hsw & Hsup & -> & Hupd & Hparse & Hwin).
    rewrite !andb_true_iff, !truthy_true_iff, (dateLessThanOneMonthAgo_true_iff dm _ Hord).
    repeat split; auto. exists t. unfold subDays, MS_PER_DAY in Hwin. auto.
Qed.

Lemma exploreTargets_In (dm : DateModule) (res : list Linked) (addr : string) :
  In addr (exploreTargets dm res) <->
  exists linked, In linked res /\ keepsLink dm linked = true /\
                 addr = normalizeInstance (domain linked).
Proof.
  unfold exploreTargets. rewrite in_map_iff. split.
  - intros (l & <- & Hl). apply filter_In in Hl as [? ?]. eauto.
  - intros (l & ? & ? & ->). exists l. split; [reflexivity|]. now apply filter_In.
Qed.

(** ** The task monad and [get] *)

Lemma await_in_time (ms : Z) (ts : TaskState) :
  elapsed ts + ms < requestHandlerTimeoutSecs * 1000 ->
  await ms ts = (inr tt, advance ms ts).
Proof.
  intros H. unfold await. destruct (Z.leb_spec (requestHandlerTimeoutSecs * 1000) (elapsed ts + ms)); [lia | reflexivity].
Qed.


Lemma await_frame (ms : Z) (ts ts' : TaskState) (r : JsError + unit) :
  await ms ts = (r, ts') ->
  queue ts' = queue ts /\ dataset ts' = dataset ts /\
  (forall u, r = inr u -> elapsed ts' < requestHandlerTimeoutSecs * 1000).
Proof.
  unfold await.
  destruct (Z.leb_spec (requestHandlerTimeoutSecs * 1000) (elapsed ts + ms));
    intros [= <- <-]; simpl; repeat split; try discriminate; auto.
Qed.

Section GetFacts.
Context {A : Type} (w : World) (url : string) (schema : json -> option A).

Lemma get_answers ms data ts :
  answers w url schema ms data ->
  elapsed ts + ms < requestHandlerTimeoutSecs * 1000 ->
  get w url schema ts = (inr data, advance ms ts).
Proof.
  intros (_ & parsed & Hw & Hs) Ht. unfold get, bind.
  rewrite Hw, (await_in_time _ _ Ht), Hs. reflexivity.
Qed.

Lemma get_shape_mismatch ms parsed ts :
  w url = Responds ms (Some parsed) -> schema parsed = None ->
  elapsed ts + ms < requestHandlerTimeoutSecs * 1000 ->
  get w url schema ts = (inl ZodError, advance ms ts).
Proof.
  intros Hw Hs Ht. unfold get, bind.
  rewrite Hw, (await_in_time _ _ Ht), Hs. reflexivity.
Qed.

Lemma get_frame ts ts' r :
  get w url schema ts = (r, ts') ->
  queue ts' = queue ts /\ dataset ts' = dataset ts /\
  (forall d, r = inr d -> elapsed ts' < requestHandlerTimeoutSecs * 1000).
Proof.
  unfold get, bind, throw, ret.
  destruct (w url) as [ms cause|ms [parsed|]];
    destruct (await ms ts) as [[e|[]] ts1] eqn:Ha;
    apply await_frame in Ha as (Hq & Hd & Ht);
    try destruct (schema parsed);
    intros [= <- <-]; repeat split; auto; try discriminate;
    intros; eapply Ht; reflexivity.
Qed.

End GetFacts.

(** ** The request handler *)

Lemma addRequests_nil (pf : Platform) (q : RequestQueue) : addRequests pf [] q = q.
Proof. reflexivity. Qed.

Section HandlerFacts.
Variable pf : Platform.
Variable w : World.
Variable requestUrl : string.

Local Abbreviation instance := (normalizeInstance requestUrl).
Local Abbreviation limit := (requestHandlerTimeoutSecs * 1000).

(** What a run of the handler can do to the task state, whatever the
    network answers. *)
Lemma requestHandler_frame ts r ts' :
  requestHandler pf w requestUrl ts = (r, ts') ->
  (exists targets, queue ts' = addRequests pf targets (queue ts))
  /\ (dataset ts' = dataset ts \/
      r = inr tt /\
      exists inst, dataset ts' = dataset ts ++ [inst] /\ producedBy pf inst requestUrl)
  /\ (r = inr tt -> elapsed ts' < limit).
Proof.
  unfold requestHandler, producedBy.
  destruct (urlHost pf instance) as [hostname|] eqn:Hhost.
  2:{ intros [= <- <-]. split; [exists []; reflexivity|]. split; [now left | discriminate]. }
  unfold bind at 1.
  destruct (get w (instance +:+ "/nodeinfo/2.1") nodeInfoSchema ts) as [[e|ni] ts1] eqn:G1;
    apply get_frame in G1 as (Q1 & D1 & T1).
  { intros [= <- <-]. split; [exists []; now rewrite Q1|]. split; [now left | discriminate]. }
  specialize (T1 ni eq_refl).
  assert (forall sw,
    (do federatedInstances <-
       get w (instance +:+ "/api/v3/federated_instances") federatedInstancesSchema;
     explore pf federatedInstances ;;
     do site <- get w (instance +:+ "/api/v3/site") lemmySiteV3;
     if (MIN_MAU <=? users_active_month site) && negb (private_instance site)
     then pushData {| url := instance; host := hostname;
                      description := site_description site; icon := site_icon site;
                      instSoftware := sw; registrationMode := registration_mode site |}
     else ret tt)%task ts1 = (r, ts') ->
    (exists targets, queue ts' = addRequests pf targets (queue ts))
    /\ (dataset ts' = dataset ts \/
        r = inr tt /\
        exists inst, dataset ts' = dataset ts ++ [inst] /\
                     url inst = instance /\ Some hostname = Some (host inst))
    /\ (r = inr tt -> elapsed ts' < limit)) as Hfull.
  { intros sw. unfold bind at 1.
    destruct (get w (instance +:+ "/api/v3/federated_instances") federatedInstancesSchema ts1)
      as [[e|linked] ts2] eqn:G2; apply get_frame in G2 as (Q2 & D2 & T2).
    { intros [= <- <-]. split; [exists []; now rewrite Q2, Q1|].
      split; [left; congruence | discriminate]. }
    unfold bind at 1, explore at 1. unfold bind at 1.
    match goal with |- context [get w (instance +:+ "/api/v3/site") lemmySiteV3 ?t] =>
      destruct (get w (instance +:+ "/api/v3/site") lemmySiteV3 t) as [[e|site] ts3] eqn:G3
    end; apply get_frame in G3 as (Q3 & D3 & T3); simpl in Q3, D3.
    { intros [= <- <-]. split; [eexists; now rewrite Q3, Q2, Q1|].
      split; [left; congruence | discriminate]. }
    specialize (T3 site eq_refl).
    destruct ((MIN_MAU <=? users_active_month site) && negb (private_instance site)).
    - intros [= <- <-]. simpl. split; [eexists; now rewrite Q3, Q2, Q1|].
      split; [|auto]. right. split; [reflexivity|].
      eexists. split; [now rewrite D3, D2, D1|]. simpl. auto.
    - intros [= <- <-]. split; [eexists; now rewrite Q3, Q2, Q1|].
      split; [left; congruence | auto]. }
  destruct (name ni).
  - destruct (startsWith (version ni) "1.").
    + intros [= <- <-]. split; [exists []; now rewrite Q1|]. split; [now left | auto].
    + apply Hfull.
  - apply Hfull.
Qed.

Section Answered.
Variables (hostname : string) (ni : NodeInfo) (ms1 : Z) (ts : TaskState).
Hypothesis Hhost : urlHost pf instance = Some hostname.
Hypothesis Hni : answers w (instance +:+ "/nodeinfo/2.1") nodeInfoSchema ms1 ni.

(** lemmy 1.x: nothing happens after the node metadata is read. *)
Lemma requestHandler_lemmy_1x :
  name ni = lemmy -> startsWith (version ni) "1." = true ->
  elapsed ts + ms1 < limit ->
  requestHandler pf w requestUrl ts = (inr tt, advance ms1 ts).
Proof.
  intros Hname Hver Ht. unfold requestHandler. rewrite Hhost.
  unfold bind. rewrite (get_answers _ _ _ _ _ _ Hni Ht), Hname, Hver. reflexivity.
Qed.

(** The full v3 branch: peers are explored, the site is fetched and the
    qualification test decides on the push. *)
Lemma requestHandler_v3 linked site ms2 ms3 :
  name ni = piefed \/ startsWith (version ni) "1." = false ->
  answers w (instance +:+ "/api/v3/federated_instances") federatedInstancesSchema ms2 linked ->
  answers w (instance +:+ "/api/v3/site") lemmySiteV3 ms3 site ->
  elapsed ts + ms1 + ms2 + ms3 < limit ->
  requestHandler pf w requestUrl ts =
  (inr tt,
   {| queue := addRequests pf (exploreTargets (dates pf) linked) (queue ts);
      dataset := dataset ts ++
                 map (recordOf instance hostname (name ni)) (qualifying site);
      elapsed := elapsed ts + ms1 + ms2 + ms3 |}).
Proof.
  intros Hbranch Hfed Hsite Ht.
  pose proof Hni as (? & _). pose proof Hfed as (? & _). pose proof Hsite as (? & _).
  assert (elapsed ts + ms1 < limit) as Ht1 by lia.
  unfold requestHandler. rewrite Hhost.
  unfold bind at 1. rewrite (get_answers _ _ _ _ _ _ Hni Ht1).
  assert (forall sw,
    (do federatedInstances <-
       get w (instance +:+ "/api/v3/federated_instances") federatedInstancesSchema;
     explore pf federatedInstances ;;
     do site <- get w (instance +:+ "/api/v3/site") lemmySiteV3;
     if (MIN_MAU <=? users_active_month site) && negb (private_instance site)
     then pushData {| url := instance; host := hostname;
                      description := site_description site; icon := site_icon site;
                      instSoftware := sw; registrationMode := registration_mode site |}
     else ret tt)%task (advance ms1 ts) =
    (inr tt,
     {| queue := addRequests pf (exploreTargets (dates pf) linked) (queue ts);
        dataset := dataset ts ++ map (recordOf instance hostname sw) (qualifying site);
        elapsed := elapsed ts + ms1 + ms2 + ms3 |})) as Hfull.
  { intros sw. unfold bind at 1.
    rewrite (get_answers _ _ _ _ _ (advance ms1 ts) Hfed) by (simpl; lia).
    unfold bind at 1, explore at 1. unfold bind at 1.
    erewrite (get_answers _ _ _ _ _ _ Hsite) by (simpl; lia).
    unfold qualifying.
    destruct ((MIN_MAU <=? users_active_month site) && negb (private_instance site));
      unfold pushData, ret, advance, recordOf; simpl; [reflexivity|].
    now rewrite app_nil_r. }
  destruct (name ni) eqn:Hname.
  - destruct Hbranch as [|Hver]; [discriminate|]. rewrite Hver. apply Hfull.
  - apply Hfull.
Qed.

End Answered.

(** A body that fails the node-metadata shape ends the task with an error
    before anything is explored or pushed. *)
Lemma requestHandler_bad_nodeinfo hostname ms parsed ts :
  urlHost pf instance = Some hostname ->
  w (instance +:+ "/nodeinfo/2.1") = Responds ms (Some parsed) ->
  nodeInfoSchema parsed = None ->
  elapsed ts + ms < limit ->
  requestHandler pf w requestUrl ts = (inl ZodError, advance ms ts).
Proof.
  intros Hhost Hw Hs Ht. unfold requestHandler. rewrite Hhost.
  unfold bind. now rewrite (get_shape_mismatch _ _ _ _ _ _ Hw Hs Ht).
Qed.

End HandlerFacts.

(** ** Node metadata shape and the version test *)

Lemma softwareEnum_Some (v : option json) (sw : Software) :
  softwareEnum v = Some sw <-> v = Some (JStr (softwareName sw)).
Proof.
  unfold softwareEnum. split.
  - destruct v as [[| | |s| |]|]; try discriminate.
    destruct (String.eqb_spec s "lemmy") as [->|]; [now intros [= <-]|].
    destruct (String.eqb_spec s "piefed") as [->|]; [now intros [= <-]|discriminate].
  - intros ->. now destruct sw.
Qed.

Lemma nodeInfoSchema_unknown_name (top sw : list (string * json)) (nm : string) :
  Zod.prop "software" top = Some (JObj sw) ->
  Zod.prop "name" sw = Some (JStr nm) ->
  nm <> "lemmy" -> nm <> "piefed" ->
  nodeInfoSchema (JObj top) = None.
Proof.
  intros Hsw Hname H1 H2. unfold nodeInfoSchema. simpl. rewrite Hsw. simpl.
  rewrite Hname. simpl.
  destruct (String.eqb_spec nm "lemmy"); [contradiction|].
  destruct (String.eqb_spec nm "piefed"); [contradiction|]. reflexivity.
Qed.

Lemma major_two_not_1x (v : string) (n : N) :
  majorVersion v = Some n -> (2 <= n)%N -> startsWith v "1." = false.
Proof.
  intros Hmajor Hn. apply not_true_is_false. intros Hpre.
  unfold startsWith in Hpre.
  destruct v as [|c1 [|c2 r]]; try discriminate.
  - change (String.prefix "1." (String c1 EmptyString))
      with (if ascii_dec "1" c1 then false else false) in Hpre.
    now destruct (ascii_dec "1" c1).
  - change (String.prefix "1." (String c1 (String c2 r)))
      with (if ascii_dec "1" c1
            then (if ascii_dec "." c2 then String.prefix EmptyString r else false)
            else false) in Hpre.
    destruct (ascii_dec "1" c1) as [<-|]; [|discriminate].
    destruct (ascii_dec "." c2) as [<-|]; [|discriminate].
    vm_compute in Hmajor. injection Hmajor as <-. lia.
Qed.

(** ** Qualification filter *)

Lemma qualifying_cases (site : SiteV3) :
  (20 <= users_active_month site /\ private_instance site = false /\
   qualifying site = [site])
  \/ ((users_active_month site < 20 \/ private_instance site = true) /\
      qualifying site = []).
Proof.
  unfold qualifying, MIN_MAU.
  destruct (Z.leb_spec 20 (users_active_month site)), (private_instance site);
    simpl; auto 6.
Qed.

(** C2: when the handler reaches the site metadata (node metadata read, v3
    branch taken, peer list and site answered in time), it appends exactly one
    [Instance] for the address if the active-monthly-user count is at least
    20 and the site is not private, and leaves the Result Store untouched
    otherwise: a count of 19 gives no entry, a count of 20 gives one, and a
    private site gives none whatever its count. *)
Theorem qualification_filter (pf : Platform) (w : World) (requestUrl hostname : string)
    (ni : NodeInfo) (linked : list Linked) (site : SiteV3) (ms1 ms2 ms3 : Z)
    (ts : TaskState) :
  let instance := normalizeInstance requestUrl in
  let after := snd (requestHandler pf w requestUrl ts) in
  urlHost pf instance = Some hostname ->
  answers w (instance +:+ "/nodeinfo/2.1") nodeInfoSchema ms1 ni ->
  name ni = piefed \/ startsWith (version ni) "1." = false ->
  answers w (instance +:+ "/api/v3/federated_instances") federatedInstancesSchema ms2 linked ->
  answers w (instance +:+ "/api/v3/site") lemmySiteV3 ms3 site ->
  elapsed ts + ms1 + ms2 + ms3 < requestHandlerTimeoutSecs * 1000 ->
  (20 <= users_active_month site /\ private_instance site = false ->
   dataset after = dataset ts ++ [recordOf instance hostname (name ni) site])
  /\ (users_active_month site < 20 \/ private_instance site = true ->
      dataset after = dataset ts)
  /\ (dataset after <> dataset ts <->
      20 <= users_active_month site /\ private_instance site = false).
Proof.
  intros instance after Hhost Hni Hbranch Hfed Hsite Ht. subst after.
  rewrite (requestHandler_v3 pf w requestUrl hostname ni ms1 ts Hhost Hni
             linked site ms2 ms3 Hbranch Hfed Hsite Ht). simpl.
  assert (forall (l : list Instance) x, l ++ [x] <> l) as Hneq.
  { intros l x H. apply (f_equal (@length _)) in H. rewrite length_app in H. simpl in H. lia. }
  destruct (qualifying_cases site) as [(Hm & Hp & ->)|([Hm|Hp] & ->)]; simpl;
    rewrite ?app_nil_r; repeat split; try tauto; try lia; try congruence;
    try (intros _; apply Hneq); try (intros [? ?]; lia || congruence).
  intros [?|?]; [lia | congruence].
Qed.

Lemma qualification_filter_witness :
  dataset (snd (requestHandler Sample.platform (Sample.lemmyServer "0.19.3" 20 false)
                  "https://a.example" Sample.idle))
  = [Sample.inst "a.example"].
Proof.
  refine (proj1 (qualification_filter Sample.platform (Sample.lemmyServer "0.19.3" 20 false)
            "https://a.example" "a.example"
            {| name := lemmy; version := "0.19.3" |}
            [{| domain := "b.example"; software := Some "lemmy"; published := None;
                updated := Some "1970-01-31T00:00:00.000Z" |}]
            {| site_description := None; site_icon := None; registration_mode := "Open";
               private_instance := false; users_active_month := 20 |}
            100 100 100 Sample.idle _ _ _ _ _ _) _).
  - reflexivity.
  - split; [lia|]. eexists. split; reflexivity.
  - right. reflexivity.
  - split; [lia|]. eexists. split; reflexivity.
  - split; [lia|]. eexists. split; reflexivity.
  - reflexivity.
  - simpl. split; [lia | reflexivity].
Defined.

Example mau_19_is_excluded :
  dataset (snd (requestHandler Sample.platform (Sample.lemmyServer "0.19.3" 19 false)
                  "https://a.example" Sample.idle)) = [].
Proof. vm_compute. reflexivity. Qed.

Example mau_20_is_included :
  dataset (snd (requestHandler Sample.platform (Sample.lemmyServer "0.19.3" 20 false)
                  "https://a.example" Sample.idle)) = [Sample.inst "a.example"].
Proof. vm_compute. reflexivity. Qed.

Example private_is_excluded :
  dataset (snd (requestHandler Sample.platform (Sample.lemmyServer "0.19.3" 5000 true)
                  "https://a.example" Sample.idle)) = [].
Proof. vm_compute. reflexivity. Qed.

(** ** Dispatcher *)

(** C5 (as amended): keyed on the validated node metadata, the handler
    finishes a lemmy server whose version starts with "1." (such as "1.4.0")
    without any peer discovery or Result Store write; it takes a lemmy
    server whose version does not start with "1." -- in particular every
    major version 2 or higher, such as "2.0.0" -- through the full v3 branch
    (v3 federated instances, exploration of the peers, v3 site,
    qualification); and for a software name other than lemmy and piefed the
    node metadata fails validation, so the task stops with a validation error
    before anything is explored or written. *)
Theorem dispatcher_routes (pf : Platform) (w : World) (requestUrl hostname : string)
    (ms1 : Z) (ts : TaskState) :
  let instance := normalizeInstance requestUrl in
  urlHost pf instance = Some hostname ->
  elapsed ts + ms1 < requestHandlerTimeoutSecs * 1000 ->
  (forall ni,
      answers w (instance +:+ "/nodeinfo/2.1") nodeInfoSchema ms1 ni ->
      name ni = lemmy -> startsWith (version ni) "1." = true ->
      requestHandler pf w requestUrl ts = (inr tt, advance ms1 ts))
  /\ (forall ni linked site ms2 ms3,
      answers w (instance +:+ "/nodeinfo/2.1") nodeInfoSchema ms1 ni ->
      name ni = lemmy ->
      startsWith (version ni) "1." = false \/
      (exists n, majorVersion (version ni) = Some n /\ (2 <= n)%N) ->
      answers w (instance +:+ "/api/v3/federated_instances")
        federatedInstancesSchema ms2 linked ->
      answers w (instance +:+ "/api/v3/site") lemmySiteV3 ms3 site ->
      elapsed ts + ms1 + ms2 + ms3 < requestHandlerTimeoutSecs * 1000 ->
      requestHandler pf w requestUrl ts =
      (inr tt,
       {| queue := addRequests pf (exploreTargets (dates pf) linked) (queue ts);
          dataset := dataset ts ++ map (recordOf instance hostname lemmy) (qualifying site);
          elapsed := elapsed ts + ms1 + ms2 + ms3 |}))
  /\ (forall top sw nm,
      w (instance +:+ "/nodeinfo/2.1") = Responds ms1 (Some (JObj top)) ->
      Zod.prop "software" top = Some (JObj sw) ->
      Zod.prop "name" sw = Some (JStr nm) ->
      nm <> "lemmy" -> nm <> "piefed" ->
      requestHandler pf w requestUrl ts = (inl ZodError, advance ms1 ts)).
Proof.
  intros instance Hhost Ht. split; [|split].
  - intros ni Hni Hname Hver.
    exact (requestHandler_lemmy_1x pf w requestUrl hostname ni ms1 ts Hhost Hni Hname Hver Ht).
  - intros ni linked site ms2 ms3 Hni Hname Hver Hfed Hsite Htot.
    rewrite <- Hname.
    apply (requestHandler_v3 pf w requestUrl hostname ni ms1 ts Hhost Hni); auto.
    right. destruct Hver as [|(n & Hn & Hge)]; [assumption|].
    exact (major_two_not_1x _ _ Hn Hge).
  - intros top sw nm Hw Hsw Hnm H1 H2.
    apply (requestHandler_bad_nodeinfo pf w requestUrl hostname ms1 (JObj top) ts Hhost Hw);
      [|exact Ht].
    exact (nodeInfoSchema_unknown_name top sw nm Hsw Hnm H1 H2).
Qed.

Lemma dispatcher_routes_witness :
  requestHandler Sample.platform (Sample.lemmyServer "1.4.0" 50 false)
    "https://a.example" Sample.idle = (inr tt, advance 100 Sample.idle)
  /\ dataset (snd (requestHandler Sample.platform (Sample.lemmyServer "2.0.0" 50 false)
                     "https://a.example" Sample.idle)) = [Sample.inst "a.example"]
  /\ requestHandler Sample.platform Sample.mastodonServer
       "https://m.example" Sample.idle = (inl ZodError, advance 100 Sample.idle).
Proof.
  split; [|split].
  - refine (proj1 (dispatcher_routes Sample.platform (Sample.lemmyServer "1.4.0" 50 false)
              "https://a.example" "a.example" 100 Sample.idle _ _)
              {| name := lemmy; version := "1.4.0" |} _ _ _); try reflexivity.
    split; [lia|]. eexists. split; reflexivity.
  - rewrite (proj1 (proj2 (dispatcher_routes Sample.platform
              (Sample.lemmyServer "2.0.0" 50 false)
              "https://a.example" "a.example" 100 Sample.idle eq_refl eq_refl))
              {| name := lemmy; version := "2.0.0" |}
              [{| domain := "b.example"; software := Some "lemmy"; published := None;
                  updated := Some "1970-01-31T00:00:00.000Z" |}]
              {| site_description := None; site_icon := None; registration_mode := "Open";
                 private_instance := false; users_active_month := 50 |}
              100 100).
    + reflexivity.
    + split; [lia|]. eexists. split; reflexivity.
    + reflexivity.
    + right. exists 2%N. split; [reflexivity | lia].
    + split; [lia|]. eexists. split; reflexivity.
    + split; [lia|]. eexists. split; reflexivity.
    + reflexivity.
  - refine (proj2 (proj2 (dispatcher_routes Sample.platform Sample.mastodonServer
              "https://m.example" "m.example" 100 Sample.idle _ _))
              _ _ "mastodon" _ _ _ _ _); try reflexivity; discriminate.
Defined.

(** C5, as stated, fails on its last part: a server reporting an unrecognized
    software name is not dropped quietly.  Its node metadata fails validation,
    the task ends with that error, and the request goes through the retry
    policy (four attempts) before it is recorded as failed. *)
Lemma unknown_software_is_an_error :
  fst (requestHandler Sample.platform Sample.mastodonServer
         "https://m.example" Sample.idle) = inl ZodError
  /\ (let c := run Sample.platform (fun _ => Sample.mastodonServer) 10
                 (startCrawl Sample.platform ["https://m.example"]) in
      failed c = ["https://m.example"] /\ attempts c = 4%nat /\ finished c = []).
Proof. vm_compute. repeat split. Qed.

(** ** Recency and support filter: the claims *)

(** C3 (as amended): [explore] hands to the request queue the normalized
    domains of exactly the links it keeps, and a link is kept iff its
    software field is present, non-empty and a supported kind, and its
    timestamp -- [updated], or [published] when [updated] is absent -- is
    non-empty, parses, and lies in the closed window fixed when the date
    module was loaded (30 days before the load-time clock reading up to that
    reading, the clock not running backwards between the two readings taken
    then), not a window measured when the filter runs.  Hence a timestamp
    31 days before the load time is excluded, one 29 days before it is
    included, and a link with neither [updated] nor [published] is
    excluded. *)
Theorem explore_filter_uses_load_window (pf : Platform) (res : list Linked)
    (ts : TaskState) (linked : Linked) :
  let dm := dates pf in
  clockInOrder dm ->
  queue (snd (explore pf res ts)) = addRequests pf (exploreTargets dm res) (queue ts)
  /\ (forall addr, In addr (exploreTargets dm res) <->
        exists l, In l res /\ keepsLink dm l = true /\ addr = normalizeInstance (domain l))
  /\ (keepsLink dm linked = true <->
        exists sw upd t,
          software linked = Some sw /\ sw <> EmptyString /\ isSupportedSoftware sw = true /\
          lastActivity linked = Some upd /\ upd <> EmptyString /\ parseISO dm upd = Some t /\
          subDays (loadClock1 dm) 30 <= t <= loadClock2 dm)
  /\ (updated linked = None -> published linked = None -> keepsLink dm linked = false)
  /\ (forall upd, lastActivity linked = Some upd ->
        parseISO dm upd = Some (subDays (loadClock1 dm) 31) ->
        keepsLink dm linked = false)
  /\ (forall sw upd, software linked = Some sw -> sw <> EmptyString ->
        isSupportedSoftware sw = true ->
        lastActivity linked = Some upd -> upd <> EmptyString ->
        parseISO dm upd = Some (subDays (loadClock1 dm) 29) ->
        keepsLink dm linked = true).
Proof.
  intros dm Hord. split; [reflexivity|].
  split; [intros addr; apply exploreTargets_In|].
  split; [now apply keepsLink_true_iff|].
  split; [|split].
  - intros Hu Hp. unfold keepsLink, lastActivity. rewrite Hu, Hp.
    destruct (software linked); [apply andb_false_r | reflexivity].
  - intros upd Hupd Hparse. apply not_true_is_false.
    rewrite (keepsLink_true_iff dm linked Hord).
    intros (sw & upd' & t & _ & _ & _ & Hupd' & _ & Hparse' & Hwin).
    rewrite Hupd in Hupd'. injection Hupd' as <-.
    rewrite Hparse in Hparse'. injection Hparse' as <-.
    unfold subDays, MS_PER_DAY in Hwin. lia.
  - intros sw upd Hsw Hne Hsup Hupd Hune Hparse.
    apply (keepsLink_true_iff dm linked Hord).
    exists sw, upd, (subDays (loadClock1 dm) 29). unfold clockInOrder in Hord.
    repeat split; auto; unfold subDays, MS_PER_DAY; lia.
Qed.

Lemma explore_filter_uses_load_window_witness :
  keepsLink Sample.loadedFeb1 Sample.recentPeer = true
  /\ keepsLink Sample.loadedFeb1 Sample.stalePeer = false
  /\ keepsLink Sample.loadedFeb1
       {| domain := "b.example"; software := Some "lemmy";
          published := None; updated := None |} = false.
Proof.
  assert (clockInOrder (dates Sample.platform)) as Hord by (unfold clockInOrder; simpl; lia).
  split; [|split].
  - refine (proj2 (proj2 (proj2 (proj2 (proj2
      (explore_filter_uses_load_window Sample.platform [] Sample.idle Sample.recentPeer
         Hord)))))
      "lemmy" "1970-01-03T00:00:00.000Z" _ _ _ _ _ _);
      try reflexivity; discriminate.
  - refine (proj1 (proj2 (proj2 (proj2 (proj2
      (explore_filter_uses_load_window Sample.platform [] Sample.idle Sample.stalePeer
         Hord)))))
      "1970-01-01T00:00:00.000Z" _ _); reflexivity.
  - refine (proj1 (proj2 (proj2 (proj2
      (explore_filter_uses_load_window Sample.platform [] Sample.idle _ Hord)))) _ _);
      reflexivity.
Defined.

(** C3, as stated, fails: the window is not measured when the filter is
    evaluated.  With the date module loaded at 1970-02-01T00:00Z and the filter
    evaluated ten minutes later, a supported peer active five minutes before
    the evaluation lies inside the trailing 30 days of that moment and is
    nevertheless filtered out. *)
Lemma window_not_measured_at_evaluation :
  let evaluatedAt := 2679000000 in
  Sample.isoTable "1970-02-01T00:05:00.000Z" = Some 2678700000
  /\ withinTrailingWindow evaluatedAt 2678700000 = true
  /\ isSupportedSoftware "lemmy" = true
  /\ loadClock2 Sample.loadedFeb1 <= evaluatedAt
  /\ keepsLink Sample.loadedFeb1 Sample.freshPeer = false.
Proof. repeat split; try reflexivity. vm_compute. discriminate. Qed.

Lemma future_timestamp_is_rejected_witness :
  dateLessThanOneMonthAgo Sample.loadedFeb1 "1970-02-01T00:05:00.000Z" = false.
Proof.
  refine (proj1 (future_timestamp_is_rejected Sample.loadedFeb1
                   "1970-02-01T00:05:00.000Z" 2678700000 _ _) _).
  - unfold clockInOrder. simpl. lia.
  - reflexivity.
  - simpl. lia.
Defined.

(** ** Snapshot writer *)

Lemma leb_true_le (s t : string) : String.leb s t = true -> String.le s t.
Proof. unfold String.le. now intros ->. Qed.

Lemma leb_false_ge (s t : string) : String.leb s t = false -> String.le t s.
Proof.
  intros H. destruct (String.le_total s t) as [Hle|Hle]; [|exact Hle].
  unfold String.le in Hle. rewrite H in Hle. contradiction.
Qed.

Lemma leb_false_ne (s t : string) : String.leb s t = false -> s <> t.
Proof.
  intros H ->. pose proof (reflexivity (R := String.le) t) as Hr.
  unfold String.le in Hr. rewrite H in Hr. contradiction.
Qed.

#[local] Instance hostOrder_trans : Transitive hostOrder.
Proof. intros a b c. unfold hostOrder. apply transitivity. Qed.

Lemma insertByHost_perm (x : Instance) (l : list Instance) :
  Permutation (x :: l) (insertByHost x l).
Proof.
  induction l as [|y r IH]; simpl; [reflexivity|].
  destruct (String.leb (host x) (host y)); [reflexivity|].
  rewrite perm_swap. now constructor.
Qed.

Lemma sortByHost_perm (l : list Instance) : Permutation l (sortByHost l).
Proof.
  induction l as [|x r IH]; simpl; [reflexivity|].
  rewrite <- insertByHost_perm. now constructor.
Qed.

Lemma insertByHost_sorted (x : Instance) (l : list Instance) :
  Sorted hostOrder l -> Sorted hostOrder (insertByHost x l).
Proof.
  induction 1 as [|y r Hr IH Hhd]; simpl; [repeat constructor|].
  destruct (String.leb (host x) (host y)) eqn:E.
  - constructor; [now constructor|]. constructor. now apply leb_true_le.
  - constructor; [exact IH|].
    destruct r as [|z r']; simpl.
    + constructor. now apply leb_false_ge.
    + destruct (String.leb (host x) (host z)).
      * constructor. now apply leb_false_ge.
      * constructor. now inversion Hhd.
Qed.

Lemma sortByHost_sorted (l : list Instance) : StronglySorted hostOrder (sortByHost l).
Proof.
  apply Sorted_StronglySorted; [exact hostOrder_trans|].
  induction l as [|x r IH]; simpl; [constructor | now apply insertByHost_sorted].
Qed.


Lemma insertByHost_ofHost (h : string) (x : Instance) (l : list Instance) :
  ofHost h (insertByHost x l) = ofHost h (x :: l).
Proof.
  induction l as [|y r IH]; [reflexivity|]. simpl.
  destruct (String.leb (host x) (host y)) eqn:E; [reflexivity|].
  apply leb_false_ne in E.
  change (ofHost h (y :: insertByHost x r)) with
    (if String.eqb (host y) h then y :: ofHost h (insertByHost x r)
     else ofHost h (insertByHost x r)).
  rewrite IH. unfold ofHost. simpl.
  destruct (String.eqb_spec (host y) h), (String.eqb_spec (host x) h); congruence.
Qed.

Lemma sortByHost_stable (h : string) (l : list Instance) :
  ofHost h (sortByHost l) = ofHost h l.
Proof.
  induction l as [|x r IH]; [reflexivity|]. simpl sortByHost.
  rewrite insertByHost_ofHost. unfold ofHost in *. simpl. now rewrite IH.
Qed.

(** Two sorted arrangements of the same records coincide when no two records
    share a host. *)
Lemma sorted_perm_unique (l1 l2 : list Instance) :
  StronglySorted hostOrder l1 -> StronglySorted hostOrder l2 ->
  Permutation l1 l2 -> NoDup (map host l1) -> l1 = l2.
Proof.
  intros S1. revert l2. induction S1 as [|a l1 S1 IH Ha]; intros l2 S2 Hp Hnd.
  - now apply Permutation_nil in Hp.
  - destruct S2 as [|b l2 S2 Hb]; [now apply Permutation_sym, Permutation_nil in Hp|].
    assert (a = b) as <-.
    { assert (In a (b :: l2)) as [->|Ha2] by (eapply Permutation_in; [exact Hp | now left]);
        [reflexivity|].
      assert (In b (a :: l1)) as [->|Hb1]
          by (eapply Permutation_in; [symmetry; exact Hp | now left]); [reflexivity|].
      exfalso. simpl in Hnd. apply NoDup_cons in Hnd as [Hnotin _]. apply Hnotin.
      apply list_elem_of_In. rewrite Forall_forall in Ha, Hb.
      assert (host a = host b) as ->.
      { apply (anti_symm String.le);
          [apply Ha, list_elem_of_In, Hb1 | apply Hb, list_elem_of_In, Ha2]. }
      now apply in_map. }
    f_equal. apply IH; [exact S2 | now apply Permutation_cons_inv in Hp |].
    simpl in Hnd. now apply NoDup_cons in Hnd.
Qed.

Lemma react_written (e : Event) (p : CrawlProcess) :
  written (react e p) = written p \/
  exists kind, written (react e p) = written p ++ [(kind, write (items p))].
Proof.
  destruct e; simpl.
  - destruct (id2Active p); [right; now exists Periodic | now left].
  - destruct (id1Pending p); now left.
  - destruct (isRunning (pool p)); now left.
  - destruct (negb (isRunning (pool p)) && negb (resumed p));
      [right; now exists Final | now left].
  - now left.
Qed.

(** C6: every snapshot, periodic or final, writes to both files the current
    records of the Result Store sorted ascending by host.  The sorted
    sequence is recomputed from the store at each write: it is a stable
    rearrangement of the records held at that moment, and when no two records
    share a host it does not depend on the order of insertion at all. *)
Theorem snapshot_sorted_by_host (p : CrawlProcess) (e : Event) :
  let snap := write (items p) in
  instances_json snap = sortByHost (items p)
  /\ instances_min_json snap = sortByHost (items p)
  /\ StronglySorted hostOrder (sortByHost (items p))
  /\ Permutation (items p) (sortByHost (items p))
  /\ (forall h, ofHost h (sortByHost (items p)) = ofHost h (items p))
  /\ (forall reordered, Permutation (items p) reordered ->
        StronglySorted hostOrder (sortByHost reordered) /\
        (NoDup (map host (items p)) -> write reordered = write (items p)))
  /\ (written (react e p) = written p \/
      exists kind, written (react e p) = written p ++ [(kind, snap)]).
Proof.
  intros snap. split; [reflexivity|]. split; [reflexivity|].
  split; [apply sortByHost_sorted|]. split; [apply sortByHost_perm|].
  split; [intros h; apply sortByHost_stable|]. split; [|apply react_written].
  intros reordered Hperm. split; [apply sortByHost_sorted|].
  intros Hnd. unfold write.
  assert (sortByHost reordered = sortByHost (items p)) as ->; [|reflexivity].
  apply sorted_perm_unique; try apply sortByHost_sorted.
  - now rewrite <- !sortByHost_perm.
  - eapply NoDup_Permutation_proper; [|exact Hnd].
    apply Permutation_map. now rewrite <- sortByHost_perm.
Qed.

Lemma snapshot_sorted_by_host_witness :
  let p := reactAll [Pushes (Sample.inst "b.example"); Pushes (Sample.inst "a.example")]
             crawlStarted in
  write [Sample.inst "a.example"; Sample.inst "b.example"] = write (items p)
  /\ instances_json (write (items p)) = [Sample.inst "a.example"; Sample.inst "b.example"].
Proof.
  intros p. split.
  - refine (proj2 (proj1 (proj2 (proj2 (proj2 (proj2 (proj2
      (snapshot_sorted_by_host p IntervalFires))))))
      [Sample.inst "a.example"; Sample.inst "b.example"] _) _).
    + apply perm_swap.
    + simpl. repeat constructor; rewrite ?list_elem_of_In; simpl; intuition discriminate.
  - reflexivity.
Defined.

(** ** Timers of [crawl()] *)

Lemma react_when_terminated (e : Event) (p : CrawlProcess) :
  resumed p = true -> id2Active p = false ->
  written (react e p) = written p /\ resumed (react e p) = true
  /\ id2Active (react e p) = false.
Proof.
  intros Hr Hi.
  destruct e; simpl; rewrite ?Hr, ?Hi, ?andb_false_r; auto.
  - destruct (id1Pending p); simpl; auto.
  - destruct (isRunning (pool p)); simpl; auto.
Qed.

Lemma terminated_is_quiet (es : list Event) (p : CrawlProcess) :
  resumed p = true -> id2Active p = false ->
  written (reactAll es p) = written p.
Proof.
  revert p. induction es as [|e es IH]; intros p Hr Hi; [reflexivity|].
  destruct (react_when_terminated e p Hr Hi) as (Hw & Hr' & Hi').
  simpl. now rewrite IH.
Qed.

(** When the deadline fires on a running crawl, the pool is aborted and the
    interval cleared; once [crawler.run] has returned, one final snapshot has
    been written and nothing is written any more. *)
Lemma deadline_path_is_clean (p : CrawlProcess) (later : list Event) :
  pool p = Running -> id1Pending p = true -> resumed p = false ->
  let stopped := react DeadlineFires p in
  let done := react RunReturns stopped in
  pool stopped = Aborted /\ id2Active stopped = false
  /\ written done = written p ++ [(Final, write (items p))]
  /\ written (reactAll later done) = written done.
Proof.
  intros Hpool Hid1 Hres. simpl. rewrite Hid1. simpl. rewrite Hpool, Hres. simpl.
  repeat split. apply terminated_is_quiet; reflexivity.
Qed.

(** C7: the code breaks the claim on the DRAINED path.  When the frontier
    drains before the deadline, [crawl()] clears the deadline timer and writes
    the final snapshot but leaves the 10-second interval set (only the
    deadline callback clears it), so the next tick writes a periodic snapshot
    after the final one. *)
Theorem drained_crawl_keeps_snapshotting :
  let done := reactAll [FrontierDrains; RunReturns] crawlStarted in
  pool done = Drained /\ resumed done = true /\ id1Pending done = false
  /\ id2Active done = true
  /\ map fst (written done) = [Final]
  /\ map fst (written (react IntervalFires done)) = [Final; Periodic]
  /\ map fst (written (reactAll [IntervalFires; IntervalFires] done))
     = [Final; Periodic; Periodic].
Proof. repeat split. Qed.

(** ** Protocol client *)




(** ** Frontier, ledger and the crawler loop *)

Section QueueFacts.
Variable pf : Platform.

Lemma tryEnqueue_ok extra addr q :
  queueOk pf extra q -> queueOk pf extra (snd (tryEnqueue pf addr q)).
Proof.
  intros (Hnd & Hin & Hrc). unfold tryEnqueue.
  destruct (decide (uniqueKey pf addr ∈ ledger q)) as [|Hnew]; [now repeat split|].
  unfold queueOk, pendingUrls in *. simpl. rewrite !fmap_app. simpl.
  split; [|split].
  - rewrite <- app_assoc. simpl. rewrite <- Permutation_middle.
    apply NoDup_cons. split; [|exact Hnd]. intros Hk. apply Hnew, Hin, Hk.
  - intros k Hk. rewrite <- app_assoc in Hk. simpl in Hk.
    rewrite <- Permutation_middle in Hk. apply elem_of_cons in Hk as [->|Hk].
    + set_solver.
    + apply elem_of_union_r, Hin, Hk.
  - apply Forall_app. split; [exact Hrc|]. repeat constructor.
Qed.

Lemma tryEnqueue_ledger addr q k :
  k ∈ ledger q -> k ∈ ledger (snd (tryEnqueue pf addr q)).
Proof.
  unfold tryEnqueue. destruct (decide _); simpl; [auto | set_solver].
Qed.


Lemma addRequests_ok extra addrs q :
  queueOk pf extra q -> queueOk pf extra (addRequests pf addrs q).
Proof.
  unfold addRequests. revert q.
  induction addrs as [|a addrs IH]; intros q H; simpl; [exact H|].
  apply IH, tryEnqueue_ok, H.
Qed.


(** A known address is never enqueued again. *)
Lemma tryEnqueue_known addr q :
  uniqueKey pf addr ∈ ledger q -> tryEnqueue pf addr q = (false, q).
Proof. intros H. unfold tryEnqueue. now destruct (decide _). Qed.

End QueueFacts.

Section LoopFacts.
Variable pf : Platform.

Local Abbreviation keys urls := (uniqueKey pf <$> urls).

Lemma queueOk_alt extra q L :
  keys (pendingUrls q) ++ extra ≡ₚ L ->
  queueOk pf extra q <->
  NoDup L /\ (forall k, k ∈ L -> k ∈ ledger q)
  /\ Forall (fun r => retryCount r <= maxRequestRetries)%nat (frontier q).
Proof.
  intros Hp. unfold queueOk.
  rewrite Hp. now setoid_rewrite Hp.
Qed.

Lemma runTask_ok w c i r :
  crawlOk pf c -> frontier (requestQueue c) !! i = Some r ->
  crawlOk pf (runTask pf w r (delete i (frontier (requestQueue c))) c).
Proof.
  intros (Hq & srcs & Hsub & Hprod) Hi.
  pose proof (delete_Permutation _ _ _ Hi) as Hperm.
  set (others := delete i (frontier (requestQueue c))) in *.
  set (handled := keys (finished c ++ failed c)).
  assert (queueOk pf (uniqueKey pf (reqUrl r) :: handled)
            {| frontier := others; ledger := ledger (requestQueue c) |}) as Hq0.
  { apply (queueOk_alt _ _ (keys (pendingUrls (requestQueue c)) ++ handled)).
    - unfold pendingUrls. simpl. rewrite Hperm. simpl.
      now rewrite <- Permutation_middle.
    - destruct Hq as (Hnd & Hin & Hrc). repeat split; auto.
      simpl. rewrite Hperm in Hrc. now apply Forall_cons in Hrc. }
  assert ((retryCount r <= maxRequestRetries)%nat) as Hr.
  { destruct Hq as (_ & _ & Hrc). rewrite Hperm in Hrc. now apply Forall_cons in Hrc. }
  unfold runTask.
  destruct (requestHandler pf w (reqUrl r) _) as [res ts] eqn:Hh.
  apply requestHandler_frame in Hh as ((targets & Hqt) & Hd & _). simpl in Hqt, Hd.
  assert (queueOk pf (uniqueKey pf (reqUrl r) :: handled) (queue ts)) as Hq1
      by (rewrite Hqt; apply addRequests_ok, Hq0).
  destruct res as [e|[]].
  - destruct Hd as [Hd|[[=] _]].
    destruct (Nat.ltb_spec (retryCount r) maxRequestRetries) as [Hlt|Hge].
    + split; simpl; [|exists srcs; now rewrite Hd].
      apply (queueOk_alt _ _ (keys (pendingUrls (queue ts)) ++
                              uniqueKey pf (reqUrl r) :: handled)).
      * unfold handled, pendingUrls. simpl. rewrite !fmap_app. simpl.
        rewrite <- app_assoc. reflexivity.
      * destruct Hq1 as (Hnd & Hin & Hrc). repeat split; auto.
        apply Forall_app. split; [exact Hrc|]. apply Forall_singleton. simpl. lia.
    + split; simpl; [|exists srcs; now rewrite Hd].
      apply (queueOk_alt _ _ (keys (pendingUrls (queue ts)) ++
                              uniqueKey pf (reqUrl r) :: handled)).
      * unfold handled. rewrite !fmap_app. simpl.
        apply Permutation_app_head. rewrite !app_assoc.
        now rewrite <- Permutation_cons_append.
      * exact Hq1.
  - split; simpl.
    + apply (queueOk_alt _ _ (keys (pendingUrls (queue ts)) ++
                              uniqueKey pf (reqUrl r) :: handled)).
      * unfold handled. rewrite !fmap_app. simpl.
        apply Permutation_app_head. rewrite <- !app_assoc. simpl.
        now rewrite <- Permutation_middle.
      * exact Hq1.
    + destruct Hd as [Hd|(_ & inst & Hd & Hinst)]; rewrite Hd.
      * exists srcs. split; [now apply sublist_inserts_r | exact Hprod].
      * exists (srcs ++ [reqUrl r]). split; [now apply sublist_app|].
        apply Forall2_app; [exact Hprod | now constructor].
Qed.

Lemma startCrawl_ok seeds : crawlOk pf (startCrawl pf seeds).
Proof.
  split; simpl.
  - apply addRequests_ok. repeat split; simpl; [constructor | | constructor].
    intros k Hk. inversion Hk.
  - exists []. split; [reflexivity | constructor].
Qed.

Lemma reachable_ok net seeds c : reachable pf net seeds c -> crawlOk pf c.
Proof.
  induction 1 as [|c i c' _ IH Hstep]; [apply startCrawl_ok|].
  unfold dispatch in Hstep.
  destruct (frontier (requestQueue c) !! i) as [r|] eqn:Hi; [|discriminate].
  injection Hstep as <-. now apply runTask_ok.
Qed.


End LoopFacts.

(** ** Result Store and request identity *)





(** ** Task failures *)




(** An address that never answers is attempted four times -- the first run
    and three retries -- and then given up, with nothing stored. *)
Example unreachable_address_is_given_up :
  let c := run Sample.platform (fun _ => Sample.nowhere) 10
             (startCrawl Sample.platform ["https://down.example"]) in
  attempts c = 4%nat /\ failed c = ["https://down.example"]
  /\ store c = [] /\ frontier (requestQueue c) = [].
Proof. vm_compute. repeat split. Qed.

(** A failing address does not keep the others from being crawled. *)
Example failure_leaves_others_alone :
  let c := run Sample.platform (fun _ => Sample.lemmyServer "0.19.3" 50 false) 10
             (startCrawl Sample.platform ["https://down.example"; "https://a.example"]) in
  map host (store c) = ["a.example"]
  /\ failed c = ["https://down.example"; "https://b.example"]
  /\ finished c = ["https://a.example"].
Proof. vm_compute. repeat split. Qed.

(** An address whose task fails on every attempt, before discovering
    anything, is run four times in all and then recorded as failed. *)
Section PersistentFailure.
Variable pf : Platform.
Variable net : nat -> World.
Variable u : string.
Hypothesis always_fails :
  forall n ts, exists e ts',
    requestHandler pf (net n) u ts = (inl e, ts') /\ queue ts' = queue ts.

Lemma failing_attempt (k n : nat) (L : gset string) (st : list Instance)
    (fin fl : list string) :
  dispatch pf net 0
    {| requestQueue := {| frontier := [{| reqUrl := u; retryCount := k |}]; ledger := L |};
       store := st; finished := fin; failed := fl; attempts := n |}
  = Some (if (k <? maxRequestRetries)%nat
          then {| requestQueue :=
                    {| frontier := [{| reqUrl := u; retryCount := S k |}]; ledger := L |};
                  store := st; finished := fin; failed := fl; attempts := S n |}
          else {| requestQueue := {| frontier := []; ledger := L |};
                  store := st; finished := fin; failed := fl ++ [u];
                  attempts := S n |}).
Proof.
  unfold dispatch, runTask. simpl.
  destruct (always_fails n {| queue := {| frontier := []; ledger := L |};
                              dataset := st; elapsed := 0 |})
    as (e & ts' & Hh & Hq).
  rewrite Hh.
  apply requestHandler_frame in Hh as (_ & [Hd|[[=] _]] & _).
  simpl in Hq, Hd. rewrite Hq, Hd. simpl.
  now destruct (k <? maxRequestRetries)%nat.
Qed.

Lemma persistent_failure_is_given_up :
  let c := run pf net 4 (startCrawl pf [u]) in
  attempts c = 4%nat /\ failed c = [u] /\ finished c = [] /\ store c = []
  /\ frontier (requestQueue c) = []
  /\ forall fuel, run pf net fuel c = c.
Proof.
  assert (startCrawl pf [u]
          = {| requestQueue := {| frontier := [{| reqUrl := u; retryCount := 0 |}];
                                  ledger := {[ uniqueKey pf u ]} ∪ ∅ |};
               store := []; finished := []; failed := []; attempts := 0 |}) as ->.
  { unfold startCrawl, addRequests, tryEnqueue. simpl.
    destruct (decide (uniqueKey pf u ∈ (∅ : gset string))) as [Hin|]; [|reflexivity].
    set_solver. }
  assert (forall fuel c, run pf net (S fuel) c
            = match dispatch pf net 0 c with
              | None => c
              | Some c' => run pf net fuel c'
              end) as run_S by reflexivity.
  do 4 (rewrite run_S, failing_attempt;
        change (_ <? maxRequestRetries)%nat with true || change (_ <? maxRequestRetries)%nat with false).
  simpl. repeat split. intros [|fuel]; reflexivity.
Qed.

End PersistentFailure.

(** ** The normalizer of [cralwer.ts] *)

Lemma lastChar_nonempty (a : ascii) (r : string) :
  exists c, lastChar (String a r) = Some c.
Proof.
  revert a. induction r as [|b r IH]; intros a; [now exists a|].
  destruct (IH b) as [c Hc]. exists c. exact Hc.
Qed.

Lemma lastChar_append (s t : string) :
  lastChar (s +:+ t) = match lastChar t with
                       | Some c => Some c
                       | None => lastChar s
                       end.
Proof.
  induction s as [|c s IH].
  { change (EmptyString +:+ t) with t. now destruct (lastChar t). }
  rewrite append_cons.
  change (lastChar (String c (s +:+ t)))
    with (match s +:+ t with EmptyString => Some c | String _ _ => lastChar (s +:+ t) end).
  rewrite IH. destruct s as [|c' s'].
  - change (EmptyString +:+ t) with t. destruct t as [|a r]; [reflexivity|].
    destruct (lastChar_nonempty a r) as [c0 ->]. reflexivity.
  - rewrite append_cons. destruct (lastChar t); reflexivity.
Qed.

Lemma trim_no_trailing_space (x : string) : endsWithChar isWhiteSpace (trim x) = false.
Proof. apply dropTrailing_no_trailing. Qed.

(** [normalizeInstance] of [cralwer.ts] is idempotent on every input; unlike
    the crawlee-based crawler's it leaves trailing slashes in place. *)
Lemma cralwer_normalizeInstance_idempotent (x : string) :
  Cralwer.normalizeInstance (Cralwer.normalizeInstance x) = Cralwer.normalizeInstance x.
Proof.
  change (Cralwer.normalizeInstance x) with (withScheme (trim x)).
  set (y := withScheme (trim x)).
  assert (startsWith y "http" = true) as Hhttp by apply withScheme_http.
  assert (endsWithChar isWhiteSpace y = false) as Hend.
  { unfold y, withScheme. destruct (negb (startsWith (trim x) "http"));
      [|apply trim_no_trailing_space].
    pose proof (trim_no_trailing_space x) as Ht. unfold endsWithChar in *.
    rewrite lastChar_append. destruct (lastChar (trim x)); [exact Ht | reflexivity]. }
  unfold Cralwer.normalizeInstance, trim.
  rewrite (http_first_char y Hhttp), (dropTrailing_fixed _ _ Hend), Hhttp. reflexivity.
Qed.

(** * Further properties of the code *)

(** ** White space and letter case *)

Lemma isWhiteSpace_lowerChar (c : ascii) : isWhiteSpace (lowerChar c) = isWhiteSpace c.
Proof. destruct c as [[] [] [] [] [] [] [] []]; reflexivity. Qed.

Lemma lowerChar_idem (c : ascii) : lowerChar (lowerChar c) = lowerChar c.
Proof. destruct c as [[] [] [] [] [] [] [] []]; reflexivity. Qed.

Lemma toLowerCase_idem (s : string) : toLowerCase (toLowerCase s) = toLowerCase s.
Proof. induction s as [|c r IH]; simpl; [reflexivity | now rewrite lowerChar_idem, IH]. Qed.

Lemma toLowerCase_dropLeading (s : string) :
  toLowerCase (dropLeading isWhiteSpace s) = dropLeading isWhiteSpace (toLowerCase s).
Proof.
  induction s as [|c r IH]; [reflexivity|]. simpl.
  rewrite isWhiteSpace_lowerChar. now destruct (isWhiteSpace c).
Qed.

Lemma toLowerCase_dropTrailing (s : string) :
  toLowerCase (dropTrailing isWhiteSpace s) = dropTrailing isWhiteSpace (toLowerCase s).
Proof.
  induction s as [|c r IH]; [reflexivity|]. simpl.
  rewrite <- IH, isWhiteSpace_lowerChar.
  destruct (dropTrailing isWhiteSpace r); simpl; [now destruct (isWhiteSpace c) | reflexivity].
Qed.

Lemma toLowerCase_trim (s : string) : toLowerCase (trim s) = trim (toLowerCase s).
Proof. unfold trim. now rewrite toLowerCase_dropTrailing, toLowerCase_dropLeading. Qed.

Lemma dropLeading_starts (p : ascii -> bool) (s : string) :
  dropLeading p s = EmptyString \/
  exists c r, dropLeading p s = String c r /\ p c = false.
Proof.
  induction s as [|c r IH]; [now left|]. simpl.
  destruct (p c) eqn:E; [exact IH | right; eauto].
Qed.

Lemma trim_idem (s : string) : trim (trim s) = trim s.
Proof.
  unfold trim.
  destruct (dropLeading_starts isWhiteSpace s) as [->|(c & r & -> & Hc)]; [reflexivity|].
  rewrite (dropTrailing_cons_keep _ _ _ Hc), (dropLeading_head _ _ _ Hc).
  rewrite <- (dropTrailing_cons_keep _ _ _ Hc). apply dropTrailing_idem.
Qed.

(** Padding with white space on either side is undone by [trim]. *)
Lemma dropLeading_pad (l s : string) :
  anyChar (fun c => negb (isWhiteSpace c)) l = false ->
  dropLeading isWhiteSpace (l +:+ s) = dropLeading isWhiteSpace s.
Proof.
  induction l as [|c l IH]; [reflexivity|]. rewrite append_cons. simpl.
  intros H. apply orb_false_iff in H as [Hc Hl]. apply negb_false_iff in Hc.
  rewrite Hc. now apply IH.
Qed.

Lemma dropTrailing_all (r : string) :
  anyChar (fun c => negb (isWhiteSpace c)) r = false ->
  dropTrailing isWhiteSpace r = EmptyString.
Proof.
  induction r as [|c r IH]; [reflexivity|]. simpl.
  intros H. apply orb_false_iff in H as [Hc Hr]. apply negb_false_iff in Hc.
  now rewrite (IH Hr), Hc.
Qed.

Lemma dropTrailing_pad (s r : string) :
  anyChar (fun c => negb (isWhiteSpace c)) r = false ->
  dropTrailing isWhiteSpace (s +:+ r) = dropTrailing isWhiteSpace s.
Proof.
  intros Hr. induction s as [|c s IH].
  - change (EmptyString +:+ r) with r. now apply dropTrailing_all.
  - rewrite append_cons. simpl. now rewrite IH.
Qed.

Lemma dropLeading_append (s r : string) :
  dropLeading isWhiteSpace s <> EmptyString ->
  dropLeading isWhiteSpace (s +:+ r) = dropLeading isWhiteSpace s +:+ r.
Proof.
  induction s as [|c s IH]; [intros H; exfalso; now apply H|].
  rewrite append_cons. simpl.
  destruct (isWhiteSpace c); [exact IH | reflexivity].
Qed.

Lemma dropLeading_all_pad (s r : string) :
  dropLeading isWhiteSpace s = EmptyString ->
  anyChar (fun c => negb (isWhiteSpace c)) r = false ->
  dropLeading isWhiteSpace (s +:+ r) = EmptyString.
Proof.
  intros Hs Hr. induction s as [|c s IH].
  - change (EmptyString +:+ r) with r. clear Hs.
    induction r as [|c r IHr]; [reflexivity|]. simpl in *.
    apply orb_false_iff in Hr as [Hc Hr]. apply negb_false_iff in Hc.
    rewrite Hc. now apply IHr.
  - rewrite append_cons. simpl in *. destruct (isWhiteSpace c); [now apply IH | discriminate].
Qed.

Lemma trim_pad (l s r : string) :
  anyChar (fun c => negb (isWhiteSpace c)) l = false ->
  anyChar (fun c => negb (isWhiteSpace c)) r = false ->
  trim (l +:+ s +:+ r) = trim s.
Proof.
  intros Hl Hr. unfold trim. rewrite (dropLeading_pad l _ Hl).
  destruct (string_dec (dropLeading isWhiteSpace s) EmptyString) as [E|E].
  - now rewrite (dropLeading_all_pad s r E Hr), E.
  - rewrite (dropLeading_append s r E). now apply dropTrailing_pad.
Qed.

(** X1: [isSupportedSoftware] looks only at the letters: white space around
    the name and the case of its letters do not change the answer, and no
    empty name is supported. *)
Theorem isSupportedSoftware_ignores_padding_and_case (l s r : string) :
  anyChar (fun c => negb (isWhiteSpace c)) l = false ->
  anyChar (fun c => negb (isWhiteSpace c)) r = false ->
  isSupportedSoftware (l +:+ s +:+ r) = isSupportedSoftware s
  /\ isSupportedSoftware (toLowerCase s) = isSupportedSoftware s
  /\ (isSupportedSoftware s = true -> truthy s = true).
Proof.
  intros Hl Hr. unfold isSupportedSoftware. split; [|split].
  - now rewrite (trim_pad l s r Hl Hr).
  - now rewrite <- toLowerCase_trim, toLowerCase_idem.
  - destruct s; [discriminate | reflexivity].
Qed.

Lemma isSupportedSoftware_ignores_padding_and_case_witness :
  isSupportedSoftware ("  " +:+ "PieFed" +:+ " ") = isSupportedSoftware "PieFed"
  /\ isSupportedSoftware "PieFed" = true.
Proof.
  split; [|reflexivity].
  apply (isSupportedSoftware_ignores_padding_and_case "  " "PieFed" " "); reflexivity.
Defined.

(** ** More on the address normalizer *)

Lemma append_assoc (s t u : string) : (s +:+ t) +:+ u = s +:+ (t +:+ u).
Proof.
  induction s as [|c s IH]; [reflexivity|]. rewrite !append_cons. now rewrite IH.
Qed.

Lemma dropLeading_append_slash (x : string) :
  dropLeading isWhiteSpace (x +:+ "/") = dropLeading isWhiteSpace x +:+ "/".
Proof.
  induction x as [|c x IH]; [reflexivity|]. rewrite append_cons. simpl.
  destruct (isWhiteSpace c); [exact IH | reflexivity].
Qed.

Lemma lastChar_dropLeading (p : ascii -> bool) (s : string) :
  dropLeading p s = EmptyString \/ lastChar (dropLeading p s) = lastChar s.
Proof.
  induction s as [|c r IH]; [now left|]. simpl dropLeading.
  destruct (p c); [|now right].
  destruct r as [|c' r']; [now left|].
  destruct IH as [E|E]; [now left|]. right. now rewrite E.
Qed.

Lemma stripTrailingSlashes_append_slash (z : string) :
  stripTrailingSlashes (z +:+ "/") = stripTrailingSlashes z.
Proof.
  unfold stripTrailingSlashes. induction z as [|c z IH]; [reflexivity|].
  rewrite append_cons. simpl. now rewrite IH.
Qed.

Lemma prefix_append_slash (q y : string) :
  anyChar isSlash q = false ->
  String.prefix q (y +:+ "/") = String.prefix q y.
Proof.
  revert y. induction q as [|a q IH]; intros y Hq.
  - now destruct y.
  - simpl in Hq. apply orb_false_iff in Hq as [Ha Hq].
    destruct y as [|b y].
    + change (String.prefix (String a q) (EmptyString +:+ "/"))
        with (if ascii_dec a "/" then String.prefix q EmptyString else false).
      destruct (ascii_dec a "/") as [->|]; [discriminate | reflexivity].
    + rewrite append_cons.
      change (String.prefix (String a q) (String b (y +:+ "/")))
        with (if ascii_dec a b then String.prefix q (y +:+ "/") else false).
      change (String.prefix (String a q) (String b y))
        with (if ascii_dec a b then String.prefix q y else false).
      now rewrite IH.
Qed.

Lemma withScheme_append_slash (y : string) : withScheme (y +:+ "/") = withScheme y +:+ "/".
Proof.
  unfold withScheme, startsWith. rewrite prefix_append_slash by reflexivity.
  destruct (String.prefix "http" y); simpl; [reflexivity|].
  now rewrite append_assoc.
Qed.

(** X2: an address is left as it is by [normalizeInstance] exactly when it
    begins with "http" and ends neither with a slash nor with white space. *)
Theorem normalizeInstance_fixed_points (x : string) :
  normalizeInstance x = x <->
  startsWith x "http" = true /\ endsWithChar isSlash x = false
  /\ endsWithChar isWhiteSpace x = false.
Proof.
  split.
  - intros Hx. assert (startsWith x "http" = true) as Hhttp
        by (rewrite <- Hx; apply normalizeInstance_http).
    split; [exact Hhttp|].
    split; [rewrite <- Hx; apply normalizeInstance_no_slash|].
    rewrite (normalizeInstance_on_http x Hhttp) in Hx.
    assert (dropTrailing isWhiteSpace x = x) as <-.
    { apply dropTrailing_same_length.
      pose proof (dropTrailing_length_le isWhiteSpace x).
      pose proof (dropTrailing_length_le isSlash (dropTrailing isWhiteSpace x)).
      rewrite Hx in *. lia. }
    apply dropTrailing_no_trailing.
  - intros (Hhttp & Hslash & Hws). rewrite (normalizeInstance_on_http x Hhttp).
    now rewrite (dropTrailing_fixed _ _ Hws), (dropTrailing_fixed _ _ Hslash).
Qed.

Lemma normalizeInstance_fixed_points_witness :
  normalizeInstance "https://lemmy.world" = "https://lemmy.world".
Proof.
  apply (proj2 (normalizeInstance_fixed_points "https://lemmy.world")).
  repeat split.
Defined.

(** X3: white space around an address and one more slash at its end make no
    difference to [normalizeInstance]. *)
Theorem normalizeInstance_ignores_padding_and_final_slash (l x r : string) :
  anyChar (fun c => negb (isWhiteSpace c)) l = false ->
  anyChar (fun c => negb (isWhiteSpace c)) r = false ->
  normalizeInstance (l +:+ x +:+ r) = normalizeInstance x
  /\ (endsWithChar isWhiteSpace x = false ->
      normalizeInstance (x +:+ "/") = normalizeInstance x).
Proof.
  intros Hl Hr. split.
  - unfold normalizeInstance. now rewrite (trim_pad l x r Hl Hr).
  - intros Hx. rewrite !normalizeInstance_unfold.
    assert (endsWithChar isWhiteSpace (dropLeading isWhiteSpace x) = false) as Hy.
    { destruct (lastChar_dropLeading isWhiteSpace x) as [->|E]; [reflexivity|].
      unfold endsWithChar in *. now rewrite E. }
    assert (trim x = dropLeading isWhiteSpace x) as ->
        by (unfold trim; now apply dropTrailing_fixed).
    assert (trim (x +:+ "/") = dropLeading isWhiteSpace x +:+ "/") as ->.
    { unfold trim. rewrite dropLeading_append_slash. apply dropTrailing_fixed.
      unfold endsWithChar. now rewrite lastChar_append. }
    rewrite withScheme_append_slash. apply stripTrailingSlashes_append_slash.
Qed.

Lemma normalizeInstance_ignores_padding_and_final_slash_witness :
  normalizeInstance (" " +:+ "lemmy.ml" +:+ "  ") = normalizeInstance "lemmy.ml"
  /\ normalizeInstance ("lemmy.ml" +:+ "/") = normalizeInstance "lemmy.ml".
Proof.
  split.
  - apply (normalizeInstance_ignores_padding_and_final_slash " " "lemmy.ml" "  ");
      reflexivity.
  - apply (normalizeInstance_ignores_padding_and_final_slash " " "lemmy.ml" " ");
      reflexivity.
Defined.

(** ** What the response shapes accept *)

Lemma linkedSchema_rejects (o : list (string * json)) :
  Zod.prop "domain" o = None \/ Zod.prop "software" o = Some JNull
  \/ Zod.prop "published" o = Some JNull \/ Zod.prop "updated" o = Some JNull ->
  linkedSchema (Some (JObj o)) = None.
Proof.
  unfold linkedSchema. simpl. intros [H|[H|[H|H]]].
  - now rewrite H.
  - rewrite H. now destruct (Zod.string_ (Zod.prop "domain" o)).
  - rewrite H. destruct (Zod.string_ (Zod.prop "domain" o)); [simpl|reflexivity].
    now destruct (Zod.optional Zod.string_ (Zod.prop "software" o)).
  - rewrite H. destruct (Zod.string_ (Zod.prop "domain" o)); [simpl|reflexivity].
    destruct (Zod.optional Zod.string_ (Zod.prop "software" o)); [simpl|reflexivity].
    now destruct (Zod.optional Zod.string_ (Zod.prop "published" o)).
Qed.

(** X4: the peer list is validated as a whole.  When it validates, the links
    come out one per entry and in the order of the body; one entry that is not
    a link -- no [domain], or [null] in place of [software], [published] or
    [updated] -- makes the whole list fail, while an entry with nothing but a
    [domain] is a link. *)
Theorem peer_list_is_all_or_nothing (top fi : list (string * json)) (entries : list json) :
  Zod.prop "federated_instances" top = Some (JObj fi) ->
  Zod.prop "linked" fi = Some (JArr entries) ->
  (forall ls, federatedInstancesSchema (JObj top) = Some ls ->
     Forall2 (fun entry l => linkedSchema (Some entry) = Some l) entries ls)
  /\ (forall entry, In entry entries -> linkedSchema (Some entry) = None ->
        federatedInstancesSchema (JObj top) = None)
  /\ (forall o, In (JObj o) entries ->
        Zod.prop "domain" o = None \/ Zod.prop "software" o = Some JNull
        \/ Zod.prop "published" o = Some JNull \/ Zod.prop "updated" o = Some JNull ->
        federatedInstancesSchema (JObj top) = None)
  /\ (forall o d, Zod.prop "domain" o = Some (JStr d) ->
        Zod.prop "software" o = None -> Zod.prop "published" o = None ->
        Zod.prop "updated" o = None ->
        linkedSchema (Some (JObj o))
        = Some {| domain := d; software := None; published := None; updated := None |}).
Proof.
  intros Hfi Hlinked.
  assert (federatedInstancesSchema (JObj top)
          = mapM (fun entry => linkedSchema (Some entry)) entries) as Heq.
  { unfold federatedInstancesSchema. simpl. rewrite Hfi. simpl. now rewrite Hlinked. }
  assert (forall entry, In entry entries -> linkedSchema (Some entry) = None ->
            federatedInstancesSchema (JObj top) = None) as Hnone.
  { intros entry Hin Hbad. rewrite Heq. apply mapM_None, Exists_exists.
    exists entry. split; [now apply list_elem_of_In | exact Hbad]. }
  split; [|split; [exact Hnone|split]].
  - intros ls Hls. rewrite Heq in Hls. now apply mapM_Some in Hls.
  - intros o Hin Hbad. apply (Hnone (JObj o) Hin). now apply linkedSchema_rejects.
  - intros o d Hd Hs Hp Hu. unfold linkedSchema. simpl. now rewrite Hd, Hs, Hp, Hu.
Qed.

Lemma peer_list_is_all_or_nothing_witness :
  federatedInstancesSchema
    (Sample.peersBody [Sample.peer "b.example" "lemmy" "1970-01-31T00:00:00.000Z";
                       JObj [("domain", JStr "c.example"); ("updated", JNull)]])
  = None.
Proof.
  refine (proj1 (proj2 (proj2 (peer_list_is_all_or_nothing _ _ _ _ _)))
            [("domain", JStr "c.example"); ("updated", JNull)] _ _);
    try reflexivity.
  - right. now left.
  - right. right. now right.
Defined.

(** X5: the node metadata validates exactly when [software.name] is the
    string "lemmy" or "piefed", letter for letter, and [software.version] is
    a string; the result carries the two and nothing else of the body
    matters. *)
Theorem nodeInfoSchema_accepts_exactly (j : json) (ni : NodeInfo) :
  nodeInfoSchema j = Some ni <->
  exists top sw,
    j = JObj top /\ Zod.prop "software" top = Some (JObj sw)
    /\ Zod.prop "name" sw = Some (JStr (softwareName (name ni)))
    /\ Zod.prop "version" sw = Some (JStr (version ni)).
Proof.
  split.
  - unfold nodeInfoSchema. destruct j as [| | | | |top]; try discriminate. simpl.
    destruct (Zod.prop "software" top) as [[| | | | |sw]|] eqn:Hsw; try discriminate. simpl.
    destruct (softwareEnum (Zod.prop "name" sw)) as [n|] eqn:Hn; [simpl|discriminate].
    destruct (Zod.prop "version" sw) as [[| | |ver| |]|] eqn:Hver; try discriminate. simpl.
    intros [= <-]. exists top, sw. simpl. apply softwareEnum_Some in Hn. auto.
  - intros (top & sw & -> & Hsw & Hn & Hver). unfold nodeInfoSchema. simpl.
    rewrite Hsw. simpl. apply softwareEnum_Some in Hn. rewrite Hn. simpl.
    rewrite Hver. simpl. now destruct ni.
Qed.

Example nodeinfo_name_is_case_sensitive :
  nodeInfoSchema (Sample.nodeInfoBody "Lemmy" "0.19.3") = None
  /\ isSupportedSoftware "Lemmy" = true.
Proof. split; reflexivity. Qed.

(** X6: a site body validates only with [local_site.registration_mode],
    [local_site.private_instance] and [counts.users_active_month] present
    under [site_view], and the validated site carries them; a body without
    [site_view] (the shape of the alpha site endpoint), without the privacy
    flag or without the user count is rejected.  A description or icon that
    is [null] or missing is read as none. *)
Theorem site_shape_requires_count_and_privacy (top : list (string * json)) :
  (forall s, lemmySiteV3 (JObj top) = Some s ->
     exists sv site ls counts,
       Zod.prop "site_view" top = Some (JObj sv)
       /\ Zod.prop "site" sv = Some (JObj site)
       /\ Zod.prop "local_site" sv = Some (JObj ls)
       /\ Zod.prop "counts" sv = Some (JObj counts)
       /\ Zod.prop "registration_mode" ls = Some (JStr (registration_mode s))
       /\ Zod.prop "private_instance" ls = Some (JBool (private_instance s))
       /\ Zod.prop "users_active_month" counts = Some (JNum (users_active_month s))
       /\ (site_description s = None <->
           Zod.prop "description" site = None \/ Zod.prop "description" site = Some JNull))
  /\ (Zod.prop "site_view" top = None -> lemmySiteV3 (JObj top) = None)
  /\ (forall sv ls counts,
        Zod.prop "site_view" top = Some (JObj sv) ->
        Zod.prop "local_site" sv = Some (JObj ls) ->
        Zod.prop "counts" sv = Some (JObj counts) ->
        Zod.prop "private_instance" ls = None \/
        Zod.prop "users_active_month" counts = None ->
        lemmySiteV3 (JObj top) = None).
Proof.
  unfold lemmySiteV3. simpl. split; [|split].
  - intros s.
    destruct (Zod.prop "site_view" top) as [[| | | | |sv]|] eqn:E1; try discriminate. simpl.
    destruct (Zod.prop "site" sv) as [[| | | | |site]|] eqn:E2; try discriminate. simpl.
    destruct (Zod.nullish Zod.string_ (Zod.prop "description" site)) as [descr|] eqn:Hd;
      [simpl|discriminate].
    destruct (Zod.nullish Zod.string_ (Zod.prop "icon" site)) as [ico|];
      [simpl|discriminate].
    destruct (Zod.prop "local_site" sv) as [[| | | | |ls]|] eqn:E3; try discriminate. simpl.
    destruct (Zod.prop "registration_mode" ls) as [[| | |mode| |]|] eqn:E4;
      try discriminate. simpl.
    destruct (Zod.prop "private_instance" ls) as [[|priv| | | |]|] eqn:E5;
      try discriminate. simpl.
    destruct (Zod.prop "counts" sv) as [[| | | | |counts]|] eqn:E6; try discriminate. simpl.
    destruct (Zod.prop "users_active_month" counts) as [[| |mau| | |]|] eqn:E7;
      try discriminate.
    simpl. intros [= <-]. exists sv, site, ls, counts. simpl.
    do 7 (split; [assumption || reflexivity|]). split.
    + intros ->. destruct (Zod.prop "description" site) as [[]|]; simpl in Hd;
        try discriminate; auto.
    + intros [H|H]; rewrite H in Hd; simpl in Hd; congruence.
  - now intros ->.
  - intros sv ls counts -> Hls Hc Hmiss. simpl.
    destruct (Zod.object (Zod.prop "site" sv)); [simpl|reflexivity].
    destruct (Zod.nullish Zod.string_ (Zod.prop "description" l)); [simpl|reflexivity].
    destruct (Zod.nullish Zod.string_ (Zod.prop "icon" l)); [simpl|reflexivity].
    rewrite Hls. simpl.
    destruct (Zod.string_ (Zod.prop "registration_mode" ls)); [simpl|reflexivity].
    destruct Hmiss as [H|H].
    + now rewrite H.
    + destruct (Zod.boolean (Zod.prop "private_instance" ls)); [simpl|reflexivity].
      rewrite Hc. simpl. now rewrite H.
Qed.

Lemma site_shape_requires_count_and_privacy_witness :
  lemmySiteV3 (JObj [("site", JObj [("registration_mode", JStr "Open")])]) = None.
Proof.
  refine (proj1 (proj2 (site_shape_requires_count_and_privacy _)) _). reflexivity.
Defined.

(** ** More on the request handler *)

Lemma get_inr {A : Type} (w : World) (url : string) (schema : json -> option A)
    (ts ts' : TaskState) (data : A) :
  get w url schema ts = (inr data, ts') ->
  exists ms parsed, w url = Responds ms (Some parsed) /\ schema parsed = Some data.
Proof.
  unfold get, bind, throw, ret.
  destruct (w url) as [ms cause|ms [parsed|]];
    destruct (await ms ts) as [[e|[]] ts1]; try discriminate.
  destruct (schema parsed) as [d|] eqn:Hs; [|discriminate].
  intros [= <- <-]. eauto.
Qed.

Lemma get_unusable {A : Type} (w : World) (url : string) (schema : json -> option A)
    (ts : TaskState) :
  unusable w url schema ->
  exists e ts', get w url schema ts = (inl e, ts')
                /\ queue ts' = queue ts /\ dataset ts' = dataset ts.
Proof.
  intros Hbad. destruct (get w url schema ts) as [[e|data] ts'] eqn:Hg.
  - apply get_frame in Hg as (Hq & Hd & _). eauto.
  - apply get_inr in Hg as (ms & parsed & Hw & Hs).
    rewrite (Hbad ms parsed Hw) in Hs. discriminate.
Qed.

(** X7: peers are explored before the site is asked for.  When the node
    metadata and the peer list arrive in time but the site request is
    rejected, times out or brings a body of another shape, the task ends in an
    error and stores nothing, yet the peers it found stay in the queue. *)
Theorem discovery_survives_site_failure (pf : Platform) (w : World)
    (requestUrl hostname : string) (ni : NodeInfo) (linked : list Linked)
    (ms1 ms2 : Z) (ts : TaskState) :
  let instance := normalizeInstance requestUrl in
  urlHost pf instance = Some hostname ->
  answers w (instance +:+ "/nodeinfo/2.1") nodeInfoSchema ms1 ni ->
  name ni = piefed \/ startsWith (version ni) "1." = false ->
  answers w (instance +:+ "/api/v3/federated_instances") federatedInstancesSchema ms2 linked ->
  unusable w (instance +:+ "/api/v3/site") lemmySiteV3 ->
  elapsed ts + ms1 + ms2 < requestHandlerTimeoutSecs * 1000 ->
  exists e ts',
    requestHandler pf w requestUrl ts = (inl e, ts')
    /\ queue ts' = addRequests pf (exploreTargets (dates pf) linked) (queue ts)
    /\ dataset ts' = dataset ts.
Proof.
  intros instance Hhost Hni Hbranch Hfed Hsite Ht.
  pose proof Hni as (? & _). pose proof Hfed as (? & _).
  assert (elapsed ts + ms1 < requestHandlerTimeoutSecs * 1000) as Ht1 by lia.
  unfold requestHandler. fold instance. rewrite Hhost.
  unfold bind at 1. rewrite (get_answers _ _ _ _ _ _ Hni Ht1).
  assert (forall sw,
    exists e ts',
      (do federatedInstances <-
         get w (instance +:+ "/api/v3/federated_instances") federatedInstancesSchema;
       explore pf federatedInstances ;;
       do site <- get w (instance +:+ "/api/v3/site") lemmySiteV3;
       if (MIN_MAU <=? users_active_month site) && negb (private_instance site)
       then pushData {| url := instance; host := hostname;
                        description := site_description site; icon := site_icon site;
                        instSoftware := sw; registrationMode := registration_mode site |}
       else ret tt)%task (advance ms1 ts) = (inl e, ts')
      /\ queue ts' = addRequests pf (exploreTargets (dates pf) linked) (queue ts)
      /\ dataset ts' = dataset ts) as Hfull.
  { intros sw. unfold bind at 1.
    rewrite (get_answers _ _ _ _ _ (advance ms1 ts) Hfed) by (simpl; lia).
    unfold bind at 1, explore at 1. unfold bind at 1.
    match goal with |- context [get w (instance +:+ "/api/v3/site") lemmySiteV3 ?t] =>
      destruct (get_unusable w (instance +:+ "/api/v3/site") lemmySiteV3 t Hsite)
        as (e & ts' & -> & Hq & Hd)
    end.
    exists e, ts'. simpl in Hq, Hd. auto. }
  destruct (name ni) eqn:Hname.
  - destruct Hbranch as [|Hver]; [discriminate|]. rewrite Hver. apply Hfull.
  - apply Hfull.
Qed.

Lemma discovery_survives_site_failure_witness :
  let w := Sample.serve "https://a.example" (Sample.nodeInfoBody "piefed" "1.2")
             (Sample.peersBody [Sample.peer "b.example" "lemmy" "1970-01-31T00:00:00.000Z"])
             (JObj [("site", JObj [("registration_mode", JStr "Open")])])
             Sample.nowhere in
  exists e ts',
    requestHandler Sample.platform w "https://a.example" Sample.idle = (inl e, ts')
    /\ pendingUrls (queue ts') = ["https://b.example"]
    /\ dataset ts' = [].
Proof.
  intros w.
  destruct (discovery_survives_site_failure Sample.platform w "https://a.example"
              "a.example" {| name := piefed; version := "1.2" |}
              [{| domain := "b.example"; software := Some "lemmy"; published := None;
                  updated := Some "1970-01-31T00:00:00.000Z" |}]
              100 100 Sample.idle) as (e & ts' & Hrun & Hq & Hd).
  - reflexivity.
  - split; [lia|]. eexists. split; reflexivity.
  - now left.
  - split; [lia|]. eexists. split; reflexivity.
  - intros ms parsed Hw. vm_compute in Hw. injection Hw as _ <-. reflexivity.
  - reflexivity.
  - exists e, ts'. split; [exact Hrun|]. split; [|exact Hd].
    rewrite Hq. reflexivity.
Defined.

Lemma addRequests_grows (pf : Platform) (addrs : list string) (q : RequestQueue) :
  frontier q `prefix_of` frontier (addRequests pf addrs q)
  /\ ledger q ⊆ ledger (addRequests pf addrs q).
Proof.
  unfold addRequests. revert q. induction addrs as [|a addrs IH]; intros q; simpl.
  - split; reflexivity.
  - destruct (IH (snd (tryEnqueue pf a q))) as [Hf Hl].
    unfold tryEnqueue in *. destruct (decide (uniqueKey pf a ∈ ledger q)); simpl in *.
    + now split.
    + split.
      * etransitivity; [|exact Hf]. now apply prefix_app_r.
      * etransitivity; [|exact Hl]. apply union_subseteq_r.
Qed.



(** X9: every record of the Result Store carries a normalized address -- it
    begins with "http" and has no slash at its end -- and the host the
    platform reads off that very address. *)
Theorem stored_records_are_normalized (pf : Platform) (net : nat -> World)
    (seeds : list string) (c : Crawl) :
  reachable pf net seeds c ->
  Forall (fun inst => normalized (url inst) /\ urlHost pf (url inst) = Some (host inst))
    (store c).
Proof.
  intros Hreach. apply reachable_ok in Hreach as (_ & srcs & _ & Hprod).
  induction Hprod as [|inst u insts srcs' [Hurl Hhost] _ IH]; constructor; [|exact IH].
  rewrite Hurl. split; [|exact Hhost].
  split; [apply normalizeInstance_http | apply normalizeInstance_no_slash].
Qed.

Lemma stored_records_are_normalized_witness :
  let start := startCrawl Sample.platform ["https://a.example/"] in
  let c := run Sample.platform (fun _ => Sample.lemmyServer "0.19.3" 50 false) 1 start in
  Forall (fun inst => normalized (url inst)
                      /\ urlHost Sample.platform (url inst) = Some (host inst))
    (store c)
  /\ map url (store c) = ["https://a.example"].
Proof.
  intros start c. split; [|vm_compute; reflexivity].
  apply (stored_records_are_normalized Sample.platform
           (fun _ => Sample.lemmyServer "0.19.3" 50 false) ["https://a.example/"] c).
  apply (reach_step _ _ _ start 0%nat); [apply reach_start|].
  vm_compute. reflexivity.
Defined.

(** ** More on discovery *)

(** X10: [explore] hands normalized addresses to the queue, at most one per
    link and in the order of the peer list; an empty peer list yields
    none. *)
Theorem explore_targets_are_normalized (dm : DateModule) (res more : list Linked) :
  Forall normalized (exploreTargets dm res)
  /\ (length (exploreTargets dm res) <= length res)%nat
  /\ exploreTargets dm (res ++ more) = exploreTargets dm res ++ exploreTargets dm more
  /\ (Forall (fun l => keepsLink dm l = true) res ->
      exploreTargets dm res = map (fun l => normalizeInstance (domain l)) res).
Proof.
  unfold exploreTargets. split; [|split; [|split]].
  - apply Forall_forall. intros addr Hin.
    apply list_elem_of_In, in_map_iff in Hin as (l & <- & _).
    split; [apply normalizeInstance_http | apply normalizeInstance_no_slash].
  - rewrite length_map. apply filter_length_le.
  - now rewrite List.filter_app, map_app.
  - intros Hall. f_equal. induction Hall as [|l ls Hl _ IH]; [reflexivity|].
    simpl. now rewrite Hl, IH.
Qed.

Lemma explore_targets_are_normalized_witness :
  exploreTargets Sample.loadedFeb1 [Sample.recentPeer]
  = [normalizeInstance (domain Sample.recentPeer)].
Proof.
  refine (proj2 (proj2 (proj2
    (explore_targets_are_normalized Sample.loadedFeb1 [Sample.recentPeer] []))) _).
  repeat constructor.
Defined.

Lemma addRequests_ledger (pf : Platform) (addrs : list string) (q : RequestQueue) (k : string) :
  k ∈ ledger q -> k ∈ ledger (addRequests pf addrs q).
Proof. intros H. now apply (proj2 (addRequests_grows pf addrs q)). Qed.

Lemma addRequests_records (pf : Platform) (addrs : list string) (q : RequestQueue) :
  Forall (fun a => uniqueKey pf a ∈ ledger (addRequests pf addrs q)) addrs.
Proof.
  revert q. induction addrs as [|a addrs IH]; intros q; constructor.
  - change (addRequests pf (a :: addrs) q)
      with (addRequests pf addrs (snd (tryEnqueue pf a q))).
    apply addRequests_ledger. unfold tryEnqueue.
    destruct (decide (uniqueKey pf a ∈ ledger q)); simpl; [assumption | set_solver].
  - apply (IH (snd (tryEnqueue pf a q))).
Qed.

Lemma addRequests_known (pf : Platform) (addrs : list string) (q : RequestQueue) :
  Forall (fun a => uniqueKey pf a ∈ ledger q) addrs -> addRequests pf addrs q = q.
Proof.
  induction 1 as [|a addrs Ha _ IH]; [reflexivity|].
  change (addRequests pf (a :: addrs) q)
    with (addRequests pf addrs (snd (tryEnqueue pf a q))).
  now rewrite (tryEnqueue_known pf a q Ha).
Qed.

(** X11: exploring a peer list a second time, as the retry of a task does,
    changes nothing: every address it would add is already in the ledger. *)
Theorem exploring_again_adds_nothing (pf : Platform) (res : list Linked) (ts : TaskState) :
  let once := snd (explore pf res ts) in
  explore pf res once = (inr tt, once)
  /\ Forall (fun addr => uniqueKey pf addr ∈ ledger (queue once))
       (exploreTargets (dates pf) res).
Proof.
  simpl. split; [|apply addRequests_records].
  unfold explore. simpl. now rewrite addRequests_known by apply addRequests_records.
Qed.

(** ** More on the snapshot writer *)

Lemma sortByHost_sorted_id (l : list Instance) :
  StronglySorted hostOrder l -> sortByHost l = l.
Proof.
  induction 1 as [|a l Hs IH Ha]; [reflexivity|].
  simpl. rewrite IH. destruct l as [|y r]; [reflexivity|]. simpl.
  apply Forall_cons in Ha as [Hay _]. unfold hostOrder, String.le in Hay.
  destruct (String.leb (host a) (host y)); [reflexivity | contradiction].
Qed.

(** X12: a snapshot is already in its final order: sorting the array written
    by [write] once more, or writing it again, gives the same snapshot, and a
    store whose records are in ascending host order is written as it is. *)
Theorem write_is_idempotent (records : list Instance) :
  sortByHost (sortByHost records) = sortByHost records
  /\ write (instances_json (write records)) = write records
  /\ (StronglySorted hostOrder records -> instances_json (write records) = records).
Proof.
  assert (sortByHost (sortByHost records) = sortByHost records) as H
      by apply sortByHost_sorted_id, sortByHost_sorted.
  split; [exact H|]. split.
  - unfold write. simpl. now rewrite H.
  - intros Hs. simpl. now apply sortByHost_sorted_id.
Qed.

Lemma write_is_idempotent_witness :
  instances_json (write [Sample.inst "a.example"; Sample.inst "b.example"])
  = [Sample.inst "a.example"; Sample.inst "b.example"].
Proof.
  apply (write_is_idempotent [Sample.inst "a.example"; Sample.inst "b.example"]).
  repeat constructor.
Defined.

(** ** More on [fetchWithTimeout] *)

Set Warnings "-clear-no-such-hyp".


Set Warnings "clear-no-such-hyp".


(** ** More on the timers of [crawl()] *)

Lemma finals_snapshot (k : SnapshotKind) (p : CrawlProcess) :
  finals (snapshot k p) = (finals p + if isFinal k then 1 else 0)%nat
  /\ periodics (snapshot k p) = (periodics p + if isFinal k then 0 else 1)%nat.
Proof.
  unfold finals, periodics, snapshot. simpl.
  rewrite !List.filter_app, !length_app. simpl. now destruct k.
Qed.

Lemma react_keeps_final_count (e : Event) (p : CrawlProcess) :
  finals p = (if resumed p then 1 else 0)%nat ->
  (resumed p = true -> id1Pending p = false /\ isRunning (pool p) = false) ->
  finals (react e p) = (if resumed (react e p) then 1 else 0)%nat
  /\ (resumed (react e p) = true ->
      id1Pending (react e p) = false /\ isRunning (pool (react e p)) = false).
Proof.
  intros Hf Hr.
  assert (forall q, finals q = finals p -> resumed q = resumed p ->
            (resumed p = true -> id1Pending q = false /\ isRunning (pool q) = false) ->
            finals q = (if resumed q then 1 else 0)%nat
            /\ (resumed q = true -> id1Pending q = false /\ isRunning (pool q) = false))
    as Hsame.
  { intros q Hq1 Hq2 Hq3. rewrite Hq1, Hq2. split; [exact Hf|]. exact Hq3. }
  assert (finals p = (if resumed p then 1 else 0)%nat
          /\ (resumed p = true -> id1Pending p = false /\ isRunning (pool p) = false))
    as Hp by now split.
  destruct e; simpl.
  - destruct (id2Active p); [|exact Hp].
    apply Hsame; [|reflexivity|exact Hr].
    rewrite (proj1 (finals_snapshot Periodic p)). simpl. lia.
  - destruct (id1Pending p) eqn:Hid; [|rewrite ?Hid; exact Hp].
    apply Hsame; [reflexivity|reflexivity|]. simpl.
    intros Hres. destruct (Hr Hres) as [_ Hrun]. rewrite Hrun. now split.
  - destruct (isRunning (pool p)) eqn:Hrun; [|rewrite ?Hrun; exact Hp].
    apply Hsame; [reflexivity|reflexivity|]. simpl.
    intros Hres. destruct (Hr Hres) as [_ ?]. congruence.
  - destruct (isRunning (pool p)) eqn:Hrun; simpl; [rewrite ?Hrun; exact Hp|].
    destruct (resumed p) eqn:Hres; simpl; [rewrite ?Hrun, ?Hres; exact Hp|].
    split; [|now split].
    match goal with |- finals (snapshot Final ?q) = _ =>
      rewrite (proj1 (finals_snapshot Final q)) end.
    unfold finals in *. simpl. now rewrite Hf.
  - exact Hp.
Qed.

(** X14: [normalizeInstance] as written in [cralwer.ts] and in the earlier
    revision of the crawler (trim, then add the scheme; trailing slashes are
    kept) is idempotent on every input, and its result always begins with
    "http" and never ends in white space. *)
Theorem slash_keeping_normalizeInstance_is_stable (x : string) :
  let y := Cralwer.normalizeInstance x in
  Earlier.normalizeInstance x = y
  /\ Cralwer.normalizeInstance y = y
  /\ startsWith y "http" = true
  /\ endsWithChar isWhiteSpace y = false.
Proof.
  intros y. split; [reflexivity|].
  split; [apply cralwer_normalizeInstance_idempotent|].
  assert (startsWith y "http" = true) as Hhttp by apply withScheme_http.
  split; [exact Hhttp|].
  unfold y, Cralwer.normalizeInstance.
  destruct (negb (startsWith (trim x) "http")); [|apply trim_no_trailing_space].
  pose proof (trim_no_trailing_space x) as Ht. unfold endsWithChar in *.
  rewrite lastChar_append. destruct (lastChar (trim x)); [exact Ht | reflexivity].
Qed.

(** X15: whatever the order of timer ticks, pushes, deadline and completion,
    [crawl()] writes at most one final snapshot -- none before
    [crawler.run] has returned and exactly one from then on -- and once it
    has returned the deadline timer is cleared, so that a deadline firing
    later does nothing. *)
Theorem at_most_one_final_snapshot (es : list Event) :
  let p := reactAll es crawlStarted in
  finals p = (if resumed p then 1 else 0)%nat
  /\ (resumed p = true -> react DeadlineFires p = p).
Proof.
  assert (forall p,
            finals p = (if resumed p then 1 else 0)%nat ->
            (resumed p = true -> id1Pending p = false /\ isRunning (pool p) = false) ->
            finals (reactAll es p) = (if resumed (reactAll es p) then 1 else 0)%nat
            /\ (resumed (reactAll es p) = true ->
                id1Pending (reactAll es p) = false)) as Hall.
  { induction es as [|e es IH]; intros p Hf Hr; simpl.
    - split; [exact Hf|]. intros H. now destruct (Hr H).
    - destruct (react_keeps_final_count e p Hf Hr) as [Hf' Hr']. now apply IH. }
  intros p. destruct (Hall crawlStarted) as [Hf Hid]; [reflexivity | discriminate |].
  split; [exact Hf|]. intros Hres. subst p.
  cbv beta iota delta [react]. now rewrite (Hid Hres).
Qed.

Lemma react_interval_cleared (e : Event) (p : CrawlProcess) :
  id2Active p = false ->
  id2Active (react e p) = false /\ periodics (react e p) = periodics p.
Proof.
  intros Hi. destruct e; simpl; rewrite ?Hi; auto.
  - destruct (id1Pending p); simpl; auto.
  - destruct (isRunning (pool p)); simpl; auto.
  - destruct (negb (isRunning (pool p)) && negb (resumed p)); [|auto].
    split; [reflexivity|].
    match goal with |- periodics (snapshot Final ?q) = _ =>
      rewrite (proj2 (finals_snapshot Final q)) end.
    unfold periodics. simpl. lia.
Qed.

Lemma at_most_one_final_snapshot_witness :
  let p := reactAll [FrontierDrains; RunReturns; IntervalFires] crawlStarted in
  finals p = 1%nat /\ react DeadlineFires p = p.
Proof.
  intros p.
  destruct (at_most_one_final_snapshot [FrontierDrains; RunReturns; IntervalFires])
    as [H1 H2].
  split; [exact H1 | apply H2; reflexivity].
Defined.

(** X16: the deadline callback stops the periodic writer for good.  From
    any state in which the deadline is still pending, once it has fired no
    later event -- in whatever order -- produces a periodic snapshot, and the
    pool is no longer running. *)
Theorem no_periodic_snapshot_after_deadline (p : CrawlProcess) (later : list Event) :
  id1Pending p = true ->
  let stopped := react DeadlineFires p in
  isRunning (pool stopped) = false
  /\ id2Active (reactAll later stopped) = false
  /\ periodics (reactAll later stopped) = periodics p.
Proof.
  intros Hid. simpl. rewrite Hid.
  set (stopped := {| pool := if isRunning (pool p) then Aborted else pool p;
                     id1Pending := false; id2Active := false; resumed := resumed p;
                     items := items p; written := written p |}).
  split; [simpl; now destruct (pool p)|].
  assert (periodics stopped = periodics p) as <- by reflexivity.
  assert (id2Active stopped = false) as Hi by reflexivity.
  clearbody stopped. revert stopped Hi.
  induction later as [|e es IH]; intros q Hi; [now split|].
  destruct (react_interval_cleared e q Hi) as [Hi' Hp]. simpl.
  destruct (IH (react e q) Hi') as [? ?]. split; [assumption | congruence].
Qed.

Lemma no_periodic_snapshot_after_deadline_witness :
  periodics (reactAll [IntervalFires; Pushes (Sample.inst "a.example"); IntervalFires;
                       RunReturns; IntervalFires]
               (react DeadlineFires crawlStarted)) = 0%nat.
Proof.
  apply (no_periodic_snapshot_after_deadline crawlStarted
           [IntervalFires; Pushes (Sample.inst "a.example"); IntervalFires;
            RunReturns; IntervalFires]).
  reflexivity.
Defined.

(** ** The timers of the earlier revision *)

Lemma earlier_react_when_resumed (e : Event) (p : Earlier.CrawlProcess) :
  Earlier.resumed p = true -> Earlier.id2Active p = false ->
  Earlier.written (Earlier.react e p) = Earlier.written p
  /\ Earlier.resumed (Earlier.react e p) = true
  /\ Earlier.id2Active (Earlier.react e p) = false.
Proof.
  intros Hr Hi.
  destruct e; simpl; rewrite ?Hr, ?Hi, ?andb_false_r; auto.
  - destruct (Earlier.id1Pending p); simpl; auto.
  - destruct (isRunning (Earlier.pool p)); simpl; auto.
Qed.

Lemma earlier_resumed_clears_interval (e : Event) (p : Earlier.CrawlProcess) :
  (Earlier.resumed p = true -> Earlier.id2Active p = false) ->
  Earlier.resumed (Earlier.react e p) = true -> Earlier.id2Active (Earlier.react e p) = false.
Proof.
  intros Hinv. destruct e; simpl.
  - destruct (Earlier.id2Active p) eqn:Hi; simpl; [|auto]. intros H.
    rewrite ?Hi. exact (Hinv H).
  - destruct (Earlier.id1Pending p); simpl; auto.
  - destruct (isRunning (Earlier.pool p)); simpl; auto.
  - destruct (negb (isRunning (Earlier.pool p)) && negb (Earlier.resumed p)); simpl; auto.
  - auto.
Qed.

(** X17: in the earlier revision of [crawl()] both timers are cleared when
    [crawler.run] returns, so on every trace -- drained or timed out --
    nothing is written after the final snapshot. *)
Theorem earlier_crawl_is_quiet_after_final (before later : list Event) :
  let p := Earlier.reactAll before Earlier.crawlStarted in
  Earlier.resumed p = true ->
  Earlier.id2Active p = false
  /\ Earlier.written (Earlier.reactAll later p) = Earlier.written p.
Proof.
  intros p Hres.
  assert (Earlier.id2Active p = false) as Hi.
  { subst p. revert Hres.
    assert (forall q, (Earlier.resumed q = true -> Earlier.id2Active q = false) ->
              Earlier.resumed (Earlier.reactAll before q) = true ->
              Earlier.id2Active (Earlier.reactAll before q) = false) as Hall.
    { induction before as [|e es IH]; intros q Hq; simpl; [exact Hq|].
      apply IH. now apply earlier_resumed_clears_interval. }
    apply Hall. discriminate. }
  split; [exact Hi|]. clearbody p. revert p Hres Hi.
  induction later as [|e es IH]; intros p Hres Hi; [reflexivity|].
  destruct (earlier_react_when_resumed e p Hres Hi) as (Hw & Hr' & Hi').
  simpl. now rewrite IH.
Qed.

Lemma earlier_crawl_is_quiet_after_final_witness :
  map fst (Earlier.written
             (Earlier.reactAll [IntervalFires; IntervalFires]
                (Earlier.reactAll [FrontierDrains; RunReturns] Earlier.crawlStarted)))
  = [Final].
Proof.
  rewrite (proj2 (earlier_crawl_is_quiet_after_final [FrontierDrains; RunReturns]
                    [IntervalFires; IntervalFires] eq_refl)).
  reflexivity.
Defined.

(** ** The handler of the earlier revision *)

Lemma earlier_await_frame (ms : Z) (ts ts' : TaskState) (r : JsError + unit) :
  Earlier.await ms ts = (r, ts') ->
  queue ts' = queue ts /\ dataset ts' = dataset ts
  /\ (forall e, r = inl e ->
        e = TaskTimeout /\ elapsed ts' = Earlier.requestHandlerTimeoutSecs * 1000).
Proof.
  unfold Earlier.await.
  destruct (Earlier.requestHandlerTimeoutSecs * 1000 <=? elapsed ts + ms);
    intros [= <- <-]; simpl; repeat split; try discriminate; congruence.
Qed.

Lemma earlier_await_in_time (ms : Z) (ts : TaskState) :
  elapsed ts + ms < Earlier.requestHandlerTimeoutSecs * 1000 ->
  Earlier.await ms ts = (inr tt, advance ms ts).
Proof.
  intros H. unfold Earlier.await.
  destruct (Z.leb_spec (Earlier.requestHandlerTimeoutSecs * 1000) (elapsed ts + ms));
    [lia | reflexivity].
Qed.

Lemma earlier_get_frame {A : Type} (w : World) (url : string) (schema : json -> option A)
    (ts ts' : TaskState) (r : JsError + A) :
  Earlier.get w url schema ts = (r, ts') ->
  queue ts' = queue ts /\ dataset ts' = dataset ts
  /\ (forall e, r = inl e -> e = TaskTimeout ->
        elapsed ts' = Earlier.requestHandlerTimeoutSecs * 1000).
Proof.
  unfold Earlier.get, bind, throw, ret.
  destruct (w url) as [ms cause|ms [parsed|]];
    destruct (Earlier.await ms ts) as [[e|[]] ts1] eqn:Ha;
    apply earlier_await_frame in Ha as (Hq & Hd & Ht);
    try destruct (schema parsed);
    intros [= <- <-]; repeat split; auto;
    intros e' [= <-]; try discriminate;
    intros _; now destruct (Ht e eq_refl).
Qed.

Lemma earlier_get_answers {A : Type} (w : World) (url : string)
    (schema : json -> option A) (ms : Z) (data : A) (ts : TaskState) :
  answers w url schema ms data ->
  elapsed ts + ms < Earlier.requestHandlerTimeoutSecs * 1000 ->
  Earlier.get w url schema ts = (inr data, advance ms ts).
Proof.
  intros (_ & parsed & Hw & Hs) Ht. unfold Earlier.get, bind.
  rewrite Hw, (earlier_await_in_time _ _ Ht), Hs. reflexivity.
Qed.

Lemma earlier_explore_queue (pf : Platform) (res : list Linked) (ts : TaskState) :
  Earlier.explore pf res ts
  = (inr tt,
     {| queue := addRequests pf
                   (map (fun l => Earlier.normalizeInstance (domain l))
                      (List.filter (keepsLink (dates pf)) res))
                   (queue ts);
        dataset := dataset ts; elapsed := elapsed ts |}).
Proof.
  unfold Earlier.explore. f_equal. f_equal.
  generalize (queue ts). induction res as [|l res IH]; intros q; [reflexivity|].
  simpl. destruct (keepsLink (dates pf) l); simpl; apply IH.
Qed.

Lemma earlier_attempt_frame (pf : Platform) (w : World) (instance : string)
    (ts ts' : TaskState) (r : JsError + unit) :
  Earlier.attempt pf w instance ts = (r, ts') ->
  (r = inl TaskTimeout -> elapsed ts' = Earlier.requestHandlerTimeoutSecs * 1000)
  /\ (exists targets, queue ts' = addRequests pf targets (queue ts))
  /\ (dataset ts' = dataset ts \/
      r = inr tt /\
      exists inst, dataset ts' = dataset ts ++ [inst]
                   /\ instSoftware inst = lemmy
                   /\ url inst = Earlier.normalizeInstance instance).
Proof.
  unfold Earlier.attempt.
  destruct (urlHost pf (Earlier.normalizeInstance instance)) as [hostname|].
  2:{ intros [= <- <-]. split; [discriminate|]. split; [now exists []|now left]. }
  unfold bind at 1.
  destruct (Earlier.get w _ nodeInfoSchema ts) as [[e|ni] ts1] eqn:G1;
    apply earlier_get_frame in G1 as (Q1 & D1 & T1).
  { intros [= <- <-]. split; [intros [= ->]; now apply (T1 TaskTimeout)|].
    split; [exists []; now rewrite Q1|now left]. }
  assert (forall (fedUrl siteUrl : string) (siteSchema : json -> option Earlier.SiteInfo),
    (do federatedInstances <- Earlier.get w fedUrl federatedInstancesSchema;
     Earlier.explore pf federatedInstances ;;
     do site <- Earlier.get w siteUrl siteSchema;
     pushData {| url := Earlier.normalizeInstance instance; host := hostname;
                 description := Earlier.siteDescription site;
                 icon := Earlier.siteIcon site; instSoftware := lemmy;
                 registrationMode := Earlier.siteRegistrationMode site |})%task ts1
    = (r, ts') ->
    (r = inl TaskTimeout -> elapsed ts' = Earlier.requestHandlerTimeoutSecs * 1000)
    /\ (exists targets, queue ts' = addRequests pf targets (queue ts))
    /\ (dataset ts' = dataset ts \/
        r = inr tt /\
        exists inst, dataset ts' = dataset ts ++ [inst]
                     /\ instSoftware inst = lemmy
                     /\ url inst = Earlier.normalizeInstance instance)) as Hfull.
  { intros fedUrl siteUrl siteSchema. unfold bind at 1.
    destruct (Earlier.get w fedUrl federatedInstancesSchema ts1) as [[e|linked] ts2] eqn:G2;
      apply earlier_get_frame in G2 as (Q2 & D2 & T2).
    { intros [= <- <-]. split; [intros [= ->]; now apply (T2 TaskTimeout)|].
      split; [exists []; now rewrite Q2, Q1 | left; congruence]. }
    unfold bind at 1. rewrite earlier_explore_queue. unfold bind at 1.
    match goal with |- context [Earlier.get w siteUrl siteSchema ?t] =>
      destruct (Earlier.get w siteUrl siteSchema t) as [[e|site] ts3] eqn:G3
    end; apply earlier_get_frame in G3 as (Q3 & D3 & T3); simpl in Q3, D3.
    { intros [= <- <-]. split; [intros [= ->]; now apply (T3 TaskTimeout)|].
      split; [eexists; now rewrite Q3, Q2, Q1 | left; congruence]. }
    intros [= <- <-]. simpl. split; [discriminate|].
    split; [eexists; now rewrite Q3, Q2, Q1|].
    right. split; [reflexivity|]. eexists. split; [now rewrite D3, D2, D1|]. now split. }
  destruct (name ni).
  - destruct (startsWith (version ni) "1.").
    + intros [= <- <-]. split; [discriminate|].
      split; [exists []; now rewrite Q1 | now left].
    + apply Hfull.
  - apply Hfull.
Qed.

(** X18: the handler of the earlier revision swallows every error raised
    while an address is processed: it ends normally unless the task budget
    itself (10 000 s) ran out.  It always notes the address in [KNOWN], never
    takes anything out of the queue or the dataset, appends at most one
    record, and every record it appends is labelled lemmy. *)
Theorem earlier_handler_swallows_errors (pf : Platform) (w : World) (instance : string)
    (st st' : Earlier.State) (r : JsError + unit) :
  Earlier.processQueueItem pf w instance st = (r, st') ->
  Earlier.KNOWN st' = {[ instance ]} ∪ Earlier.KNOWN st
  /\ (r = inr tt \/
      r = inl TaskTimeout /\ elapsed (Earlier.task st') = 10000 * 1000)
  /\ (exists targets,
        queue (Earlier.task st') = addRequests pf targets (queue (Earlier.task st)))
  /\ (dataset (Earlier.task st') = dataset (Earlier.task st) \/
      r = inr tt /\
      exists inst, dataset (Earlier.task st') = dataset (Earlier.task st) ++ [inst]
                   /\ instSoftware inst = lemmy
                   /\ url inst = Earlier.normalizeInstance instance).
Proof.
  unfold Earlier.processQueueItem.
  destruct (Earlier.attempt pf w instance (Earlier.task st)) as [res ts] eqn:Ha.
  apply earlier_attempt_frame in Ha as (Ht & Hq & Hd).
  destruct res as [[]|[]]; intros [= <- <-]; simpl;
    (split; [reflexivity|]); (split; [|split; [exact Hq|]]);
    try (now left);
    try (destruct Hd as [Hd|[[=] _]]; now left);
    try exact Hd.
  right. split; [reflexivity|]. now apply Ht.
Qed.

Lemma earlier_handler_swallows_errors_witness :
  let st := {| Earlier.KNOWN := ∅; Earlier.task := Sample.idle |} in
  let out := Earlier.processQueueItem Sample.platform Sample.mastodonServer
               "https://m.example" st in
  fst out = inr tt /\ dataset (Earlier.task (snd out)) = [].
Proof.
  intros st out.
  destruct (earlier_handler_swallows_errors Sample.platform Sample.mastodonServer
              "https://m.example" st (snd out) (fst out))
    as (_ & [Hr|[Hr Ht]] & _ & Hd).
  - unfold out. now destruct (Earlier.processQueueItem _ _ _ _).
  - split; [exact Hr|]. vm_compute. reflexivity.
  - exfalso. vm_compute in Ht. discriminate.
Defined.

(** X19: in the earlier revision a piefed server whose node metadata, peer
    list ([/api/v1/federated_instances]) and site ([/api/alpha/site]) answer
    within the task budget is always recorded, whatever its version or size,
    and the record carries the label lemmy; the peers that pass the filter
    are handed to the queue before the site is fetched. *)
Theorem earlier_piefed_is_stored_as_lemmy (pf : Platform) (w : World)
    (instance hostname : string) (ni : NodeInfo) (linked : list Linked)
    (site : Earlier.SiteInfo) (ms1 ms2 ms3 : Z) (st : Earlier.State) :
  let addr := Earlier.normalizeInstance instance in
  urlHost pf addr = Some hostname ->
  answers w (addr +:+ "/nodeinfo/2.1") nodeInfoSchema ms1 ni ->
  name ni = piefed ->
  answers w (addr +:+ "/api/v1/federated_instances") federatedInstancesSchema ms2 linked ->
  answers w (addr +:+ "/api/alpha/site") Earlier.pieFedSiteV3 ms3 site ->
  elapsed (Earlier.task st) + ms1 + ms2 + ms3 < 10000 * 1000 ->
  Earlier.processQueueItem pf w instance st
  = (inr tt,
     {| Earlier.KNOWN := {[ instance ]} ∪ Earlier.KNOWN st;
        Earlier.task :=
          {| queue := addRequests pf
                        (map (fun l => Earlier.normalizeInstance (domain l))
                           (List.filter (keepsLink (dates pf)) linked))
                        (queue (Earlier.task st));
             dataset := dataset (Earlier.task st)
                        ++ [ {| url := addr; host := hostname;
                                description := Earlier.siteDescription site;
                                icon := Earlier.siteIcon site;
                                instSoftware := lemmy;
                                registrationMode := Earlier.siteRegistrationMode site |} ];
             elapsed := elapsed (Earlier.task st) + ms1 + ms2 + ms3 |} |}).
Proof.
  intros addr Hh A1 Hn A2 A3 Ht.
  pose proof A1 as [P1 _]. pose proof A2 as [P2 _]. pose proof A3 as [P3 _].
  change (10000 * 1000) with (Earlier.requestHandlerTimeoutSecs * 1000) in Ht.
  unfold Earlier.processQueueItem, Earlier.attempt. fold addr. rewrite Hh.
  unfold bind at 1.
  rewrite (earlier_get_answers _ _ _ _ _ _ A1) by lia.
  rewrite Hn. unfold bind at 1.
  rewrite (earlier_get_answers _ _ _ _ _ _ A2) by (simpl; lia).
  unfold bind at 1. rewrite earlier_explore_queue. unfold bind at 1.
  rewrite (earlier_get_answers _ _ _ _ _ _ A3) by (simpl; lia).
  unfold pushData, advance. simpl. reflexivity.
Qed.

Lemma earlier_piefed_is_stored_as_lemmy_witness :
  exists st',
    Earlier.processQueueItem Sample.platform
      (pieFedServer "https://p.example" (Sample.peersBody [])
         (JObj [("site", JObj [("registration_mode", JStr "Closed")])]))
      " p.example " {| Earlier.KNOWN := ∅; Earlier.task := Sample.idle |}
    = (inr tt, st')
    /\ map instSoftware (dataset (Earlier.task st')) = [lemmy]
    /\ map url (dataset (Earlier.task st')) = ["https://p.example"].
Proof.
  eexists. split.
  - apply (earlier_piefed_is_stored_as_lemmy Sample.platform _ " p.example " "p.example"
             {| name := piefed; version := "1.2.0" |} []
             {| Earlier.siteDescription := None; Earlier.siteIcon := None;
                Earlier.siteRegistrationMode := "Closed" |} 100 100 100).
    + vm_compute. reflexivity.
    + split; [lia|]. eexists. split; vm_compute; reflexivity.
    + reflexivity.
    + split; [lia|]. eexists. split; vm_compute; reflexivity.
    + split; [lia|]. eexists. split; vm_compute; reflexivity.
    + simpl. lia.
  - split; reflexivity.
Defined.

(** ** The memoized handler of [cralwer.ts] *)

Lemma cralwer_get_net {A : Type} (url : string) (schema : json -> option A)
    (n n' : Net) (r : JsError + A) :
  Cralwer.get url schema n = (r, n') -> n' = drop 1 n.
Proof.
  unfold Cralwer.get, nextFetch.
  destruct n as [|b rest]; simpl.
  - intros [= <- <-]. reflexivity.
  - destruct (fetchAbortingAt 5000 (b url)) as [[e|res]|];
      [| destruct (body res) as [parsed|]; [destruct (schema parsed)|] |];
      intros [= <- <-]; reflexivity.
Qed.

Lemma visit_get_frame {A : Type} (url : string) (schema : json -> option A)
    (st st' : Visit.Program) (r : JsError + A) :
  Visit.get url schema st = (r, st') -> st' = Visit.setNet (drop 1 (Visit.net st)) st.
Proof.
  unfold Visit.get.
  destruct (Cralwer.get url schema (Visit.net st)) as [r0 n'] eqn:G.
  apply cralwer_get_net in G as ->. now intros [= <- <-].
Qed.

Lemma visit_explore_queued (pf : Platform) (res : list Linked) (st : Visit.Program) :
  Visit.explore pf res st
  = Visit.setQueued
      (Visit.queued st
       ++ map (fun l => Cralwer.normalizeInstance (domain l))
            (List.filter (keepsLink (dates pf)) res))
      st.
Proof.
  unfold Visit.explore. f_equal.
  generalize (Visit.queued st). induction res as [|l res IH]; intros q; simpl.
  - now rewrite app_nil_r.
  - rewrite IH. destruct (keepsLink (dates pf) l); simpl; [|reflexivity].
    now rewrite <- app_assoc.
Qed.

Lemma attemptFrame_refl (pf : Platform) (st : Visit.Program) : attemptFrame pf st st.
Proof.
  split; try reflexivity.
  - exists 0%nat. split; [lia | reflexivity].
  - exists []. split; [constructor | now rewrite app_nil_r].
Qed.

Lemma attemptFrame_fetch (pf : Platform) (st0 st : Visit.Program) :
  (exists k, (k <= 2)%nat /\ Visit.net st = drop k (Visit.net st0)) ->
  attemptFrame pf st0 st ->
  attemptFrame pf st0 (Visit.setNet (drop 1 (Visit.net st)) st).
Proof.
  intros (k & Hk & Hn) [H1 H2 H3 H4 H5 _ H7]. split; simpl; auto.
  exists (k + 1)%nat. split; [lia|]. now rewrite Hn, drop_drop.
Qed.

Lemma filter_keeps (p : Linked -> bool) (l : list Linked) :
  Forall (fun x => p x = true) (List.filter p l).
Proof.
  apply List.Forall_forall. intros x Hx. now apply List.filter_In in Hx.
Qed.

Lemma visitV3_frame (pf : Platform) (fedUrl siteUrl : string)
    (siteSchema : json -> option Earlier.SiteInfo)
    (st0 st st' : Visit.Program) (r : JsError + unit) :
  Visit.visitV3 pf fedUrl siteUrl siteSchema st = (r, st') ->
  Visit.net st = drop 1 (Visit.net st0) ->
  Visit.queued st = Visit.queued st0 ->
  attemptFrame pf st0 st ->
  attemptFrame pf st0 st'.
Proof.
  intros H Hn Hq F. unfold Visit.visitV3 in H.
  destruct (Visit.get fedUrl federatedInstancesSchema st) as [[e|linked] st1] eqn:G1;
    apply visit_get_frame in G1 as ->.
  { injection H as <- <-. apply attemptFrame_fetch; [|exact F].
    exists 1%nat. split; [lia | exact Hn]. }
  rewrite visit_explore_queued in H.
  match type of H with
  | context [Visit.get siteUrl siteSchema ?s] =>
      destruct (Visit.get siteUrl siteSchema s) as [[e|site] st2] eqn:G2;
        apply visit_get_frame in G2 as ->
  end;
    injection H as <- <-;
    destruct F as [H1 H2 H3 H4 H5 _ _]; (split; simpl; auto);
    try (exists 3%nat; split; [lia|]; rewrite Hn, !drop_drop; reflexivity);
    (eexists; split; [apply filter_keeps | now rewrite Hq]).
Qed.

Lemma visit_attempt_frame (pf : Platform) (instance : string)
    (st st' : Visit.Program) (r : JsError + unit) :
  Visit.attempt pf instance st = (r, st') -> attemptFrame pf st st'.
Proof.
  unfold Visit.attempt.
  destruct (urlHost pf (Cralwer.normalizeInstance instance)).
  2:{ intros [= <- <-]. apply attemptFrame_refl. }
  destruct (Visit.get _ nodeInfoSchema st) as [[e|ni] st1] eqn:G1;
    apply visit_get_frame in G1 as ->.
  { intros [= <- <-]. apply attemptFrame_fetch; [|apply attemptFrame_refl].
    exists 0%nat. split; [lia | reflexivity]. }
  assert (attemptFrame pf st (Visit.setNet (drop 1 (Visit.net st)) st)) as F.
  { apply attemptFrame_fetch; [|apply attemptFrame_refl].
    exists 0%nat. split; [lia | reflexivity]. }
  destruct (name ni).
  - destruct (startsWith (version ni) "1.").
    + now intros [= <- <-].
    + intros H. now apply (visitV3_frame _ _ _ _ st) in H.
  - intros H. now apply (visitV3_frame _ _ _ _ st) in H.
Qed.

(** X20: one call of the memoized handler of [cralwer.ts] makes at most
    three [fetch] calls, hands to [queue] only addresses of peers that pass
    the filter, each of them already in the form [normalizeInstance] gives,
    adds nothing but its own argument to [KNOWN], never touches
    [discovered] or the progress buffer, and leaves its result in the cache
    under the argument as passed. *)
Theorem handler_call_effects (pf : Platform) (instance : string) (st : Visit.Program) :
  let out := Visit.processQueueItem pf instance st in
  (exists k, (k <= 3)%nat /\ Visit.net (snd out) = drop k (Visit.net st))
  /\ (exists links,
        Forall (fun l => keepsLink (dates pf) l = true) links
        /\ Visit.queued (snd out)
           = Visit.queued st ++ map (fun l => Cralwer.normalizeInstance (domain l)) links)
  /\ Forall (fun a => Cralwer.normalizeInstance a = a)
       (drop (length (Visit.queued st)) (Visit.queued (snd out)))
  /\ Visit.KNOWN st ⊆ Visit.KNOWN (snd out)
  /\ Visit.KNOWN (snd out) ⊆ {[ instance ]} ∪ Visit.KNOWN st
  /\ Visit.discovered (snd out) = Visit.discovered st
  /\ Visit.progress (snd out) = Visit.progress st
  /\ Visit.i (snd out) = Visit.i st
  /\ Visit.cache (snd out) !! instance = Some (fst out).
Proof.
  intros out.
  assert (forall links,
    Visit.queued (snd out)
    = Visit.queued st ++ map (fun l => Cralwer.normalizeInstance (domain l)) links ->
    Forall (fun a => Cralwer.normalizeInstance a = a)
      (drop (length (Visit.queued st)) (Visit.queued (snd out)))) as Hfix.
  { intros links ->. rewrite drop_app_length.
    apply List.Forall_forall. intros a Ha. apply in_map_iff in Ha as (l & <- & _).
    apply cralwer_normalizeInstance_idempotent. }
  subst out. unfold Visit.processQueueItem in *.
  destruct (Visit.cache st !! instance) as [settled|] eqn:Hc; simpl in *.
  { split; [exists 0%nat; split; [lia | reflexivity]|].
    split; [exists []; split; [constructor | now rewrite app_nil_r]|].
    split; [apply (Hfix []); now rewrite app_nil_r|].
    split; [reflexivity|]. split; [apply union_subseteq_r|].
    now repeat split. }
  match goal with
  | |- context [Visit.attempt pf instance ?s] =>
      destruct (Visit.attempt pf instance s) as [r st1] eqn:Ha
  end.
  apply visit_attempt_frame in Ha as [H1 H2 H3 H4 H5 H6 H7]. simpl in *.
  destruct H7 as (links & Hl & Hq).
  split; [exact H6|]. split; [now exists links|].
  split; [now apply (Hfix links)|].
  rewrite H1.
  split; [apply union_subseteq_r|]. split; [reflexivity|].
  do 3 (split; [assumption|]).
  now rewrite lookup_insert_eq.
Qed.

Set Warnings "-clear-no-such-hyp".

Lemma visit_call_cases (pf : Platform) (instance : string) (st : Visit.Program) :
  let st' := snd (Visit.processQueueItem pf instance st) in
  (instance ∈ dom (Visit.cache st) /\ st' = st)
  \/ ((instance ∉ dom (Visit.cache st))
      /\ dom (Visit.cache st') = {[ instance ]} ∪ dom (Visit.cache st)
      /\ Visit.KNOWN st' = {[ instance ]} ∪ Visit.KNOWN st
      /\ (exists k, (k <= 3)%nat /\ Visit.net st' = drop k (Visit.net st))
      /\ Visit.discovered st' = Visit.discovered st
      /\ Visit.progress st' = Visit.progress st
      /\ Visit.i st' = Visit.i st).
Proof.
  unfold Visit.processQueueItem.
  destruct (Visit.cache st !! instance) as [settled|] eqn:Hc; simpl.
  { left. split; [|reflexivity]. apply elem_of_dom. now exists settled. }
  right. split; [now apply not_elem_of_dom|].
  match goal with
  | |- context [Visit.attempt pf instance ?s] =>
      destruct (Visit.attempt pf instance s) as [r st1] eqn:Ha
  end.
  apply visit_attempt_frame in Ha as [H1 H2 H3 H4 H5 H6 _]. simpl in *.
  rewrite dom_insert_L, H2. now repeat split.
Qed.

Lemma addresses_cons_runs (a : string) (es : list Visit.Event) :
  Visit.addresses (Visit.Runs a :: es) = a :: Visit.addresses es.
Proof. reflexivity. Qed.

Lemma addresses_cons_frame (es : list Visit.Event) :
  Visit.addresses (Visit.Frame :: es) = Visit.addresses es.
Proof. reflexivity. Qed.

(** X21: thanks to the memo cache, a crawl makes at most three [fetch]
    calls for each distinct address handed to the handler that was not
    already in the cache, however often addresses repeat and whatever the
    network answers. *)
Theorem memo_bounds_requests (pf : Platform) (es : list Visit.Event) (st : Visit.Program) :
  exists k,
    (k <= 3 * size (list_to_set (Visit.addresses es) ∖ dom (Visit.cache st) : gset string))%nat
    /\ Visit.net (Visit.run pf es st) = drop k (Visit.net st).
Proof.
  revert st. induction es as [|[a|] es IH]; intros st.
  - exists 0%nat. split; [lia | reflexivity].
  - rewrite addresses_cons_runs. unfold Visit.run. simpl.
    destruct (visit_call_cases pf a st) as [[Hin ->]|(Hout & Hdom & _ & (k1 & Hk1 & Hn) & _)].
    + destruct (IH st) as (k & Hk & Hnet). exists k. split; [|exact Hnet].
      assert (((({[a]} ∪ list_to_set (Visit.addresses es)) ∖ dom (Visit.cache st)) : gset string)
              = list_to_set (Visit.addresses es) ∖ dom (Visit.cache st)) as ->
        by set_solver.
      exact Hk.
    + destruct (IH (snd (Visit.processQueueItem pf a st))) as (k & Hk & Hnet).
      exists (k1 + k)%nat. split.
      * rewrite Hdom in Hk.
        assert (((({[a]} ∪ list_to_set (Visit.addresses es)) ∖ dom (Visit.cache st)) : gset string)
                = {[a]} ∪ (list_to_set (Visit.addresses es)
                             ∖ ({[a]} ∪ dom (Visit.cache st)))) as ->.
        { apply set_eq. intros x.
          rewrite elem_of_difference, !elem_of_union, elem_of_difference,
            elem_of_union, elem_of_singleton.
          destruct (decide (x = a)) as [->|]; naive_solver. }
        rewrite size_union by set_solver. rewrite size_singleton. lia.
      * unfold Visit.run in Hnet. rewrite Hnet, Hn. apply drop_drop.
  - rewrite addresses_cons_frame. unfold Visit.run. simpl.
    destruct (IH (Visit.reportProgress st)) as (k & Hk & Hnet).
    exists k. split; [exact Hk | exact Hnet].
Qed.

Lemma run_known (pf : Platform) (es : list Visit.Event) (st : Visit.Program) :
  Visit.KNOWN st = dom (Visit.cache st) ->
  Visit.KNOWN (Visit.run pf es st) = list_to_set (Visit.addresses es) ∪ Visit.KNOWN st
  /\ dom (Visit.cache (Visit.run pf es st))
     = list_to_set (Visit.addresses es) ∪ Visit.KNOWN st.
Proof.
  unfold Visit.run. revert st.
  induction es as [|[a|] es IH]; intros st Hst.
  - simpl. split; [|rewrite Hst]; set_solver.
  - rewrite addresses_cons_runs. cbn [fold_left Visit.step].
    destruct (visit_call_cases pf a st) as [[Hin ->]|(Hout & Hdom & Hk & _)].
    + destruct (IH st Hst) as [-> ->]. rewrite <- Hst in Hin. split; set_solver.
    + destruct (IH (snd (Visit.processQueueItem pf a st))) as [E1 E2].
      { rewrite Hk, Hdom. now rewrite Hst. }
      rewrite E1, E2, Hk. split; set_solver.
  - rewrite addresses_cons_frame. cbn [fold_left Visit.step].
    apply (IH (Visit.reportProgress st)). exact Hst.
Qed.

Lemma loaded_run_known (pf : Platform) (n : Net) (es : list Visit.Event) :
  Visit.KNOWN (Visit.run pf es (Visit.loaded n)) = list_to_set (Visit.addresses es)
  /\ dom (Visit.cache (Visit.run pf es (Visit.loaded n)))
     = list_to_set (Visit.addresses es).
Proof.
  destruct (run_known pf es (Visit.loaded n)) as [-> ->]; [|split]; simpl; set_solver.
Qed.

(** X22: after any course of events from the loaded script, [KNOWN] and the
    keys of the memo cache are both exactly the set of addresses handed to
    the handler so far; so an address that was handed over before costs
    nothing when it comes again: the call changes no state and makes no
    request. *)
Theorem known_is_the_set_of_addresses_run (pf : Platform) (n : Net)
    (es : list Visit.Event) (again : string) :
  let st := Visit.run pf es (Visit.loaded n) in
  Visit.KNOWN st = list_to_set (Visit.addresses es)
  /\ dom (Visit.cache st) = list_to_set (Visit.addresses es)
  /\ (In again (Visit.addresses es) ->
      snd (Visit.processQueueItem pf again st) = st).
Proof.
  intros st. destruct (loaded_run_known pf n es) as [Hk Hc]. fold st in Hk, Hc.
  split; [exact Hk|]. split; [exact Hc|].
  intros Hin.
  destruct (visit_call_cases pf again st) as [[_ E]|(Hout & _)]; [exact E|].
  exfalso. apply Hout. rewrite Hc. apply elem_of_list_to_set. now apply list_elem_of_In.
Qed.

Lemma known_is_the_set_of_addresses_run_witness :
  let st := Visit.run Sample.platform [Visit.Runs "https://lemmy.world"] (Visit.loaded []) in
  snd (Visit.processQueueItem Sample.platform "https://lemmy.world" st) = st.
Proof.
  intros st.
  destruct (known_is_the_set_of_addresses_run Sample.platform []
              [Visit.Runs "https://lemmy.world"] "https://lemmy.world") as (_ & _ & H).
  apply H. simpl. now left.
Defined.

Set Warnings "clear-no-such-hyp".

(** ** The progress buffer of [cralwer.ts] *)

Lemma assign_lookup {A : Type} (k : nat) (v : A) (arr : list (option A)) :
  Visit.assign k v arr !! k = Some (Some v).
Proof.
  unfold Visit.assign. destruct (Nat.ltb_spec k (length arr)) as [Hlt|Hge].
  - now apply list_lookup_insert_eq.
  - rewrite lookup_app_r by lia.
    rewrite lookup_app_r by (rewrite length_replicate; lia).
    rewrite length_replicate.
    now replace (k - length arr - (k - length arr))%nat with 0%nat by lia.
Qed.

Lemma increment_min (f : Z) :
  0 <= f -> Visit.increment (Z.min f (2 ^ 53)) = Z.min (f + 1) (2 ^ 53).
Proof.
  intros Hf. unfold Visit.increment.
  destruct (Z.ltb_spec (Z.min f (2 ^ 53)) (2 ^ 53)); lia.
Qed.

Lemma slot_below_100 (f : Z) :
  0 <= f -> f < 100 -> Z.min f (2 ^ 53) mod 100 = f.
Proof.
  intros H0 H1. rewrite Z.min_l by lia. apply Z.mod_small. lia.
Qed.

Lemma reportProgress_inv (f : Z) (st : Visit.Program) :
  0 <= f -> progressInv f st -> progressInv (f + 1) (Visit.reportProgress st).
Proof.
  intros Hf (Hd & Hi & Hlen & Hall). unfold progressInv, Visit.reportProgress; simpl.
  split; [exact Hd|]. split; [rewrite Hi; now apply increment_min|].
  rewrite Hd, Hi. simpl length. unfold Visit.assign.
  assert (0 <= Z.min f (2 ^ 53) mod 100 < 100) as Hk by (apply Z.mod_pos_bound; lia).
  destruct (Nat.ltb_spec (Z.to_nat (Z.min f (2 ^ 53) mod 100)) (length (Visit.progress st)))
    as [Hlt|Hge].
  - split.
    + rewrite length_insert, Hlen.
      destruct (Z.lt_ge_cases f 100) as [Hs|Hs]; [|lia].
      rewrite slot_below_100 in Hlt by lia. lia.
    + apply Forall_insert; [exact Hall|]. eexists. split; reflexivity.
  - assert (f < 100) as Hs by lia.
    rewrite slot_below_100 in * by lia.
    assert ((Z.to_nat f - length (Visit.progress st))%nat = 0%nat) as -> by lia.
    simpl. split.
    + rewrite length_app. simpl. lia.
    + apply Forall_app. split; [exact Hall|].
      constructor; [|constructor]. eexists. split; reflexivity.
Qed.

Lemma run_progressInv (pf : Platform) (es : list Visit.Event) (f : Z) (st : Visit.Program) :
  0 <= f -> progressInv f st ->
  progressInv (f + Z.of_nat (Visit.frames es)) (Visit.run pf es st).
Proof.
  unfold Visit.run, Visit.frames. revert f st.
  induction es as [|[a|] es IH]; intros f st Hf Hinv.
  - simpl. now rewrite Z.add_0_r.
  - cbn [fold_left Visit.step List.filter]. apply IH; [exact Hf|].
    destruct Hinv as (Hd & Hi & Hlen & Hall).
    destruct (visit_call_cases pf a st) as [[_ ->]|(_ & _ & _ & _ & E1 & E2 & E3)].
    + now repeat split.
    + unfold progressInv. now rewrite E1, E2, E3.
  - cbn [fold_left Visit.step List.filter length].
    replace (f + Z.of_nat (S (length (List.filter
               (fun e => match e with Visit.Frame => true | Visit.Runs _ => false end) es))))
      with ((f + 1) + Z.of_nat (length (List.filter
               (fun e => match e with Visit.Frame => true | Visit.Runs _ => false end) es)))
      by lia.
    apply IH; [lia|]. now apply reportProgress_inv.
Qed.

Lemma loaded_progressInv (n : Net) : progressInv 0 (Visit.loaded n).
Proof.
  unfold progressInv. simpl. repeat split.
  constructor; [|constructor]. eexists. split; reflexivity.
Qed.

(** X23: the progress buffer never holds more than 100 points and never a
    hole: after any course of events it has max(1, min(frames, 100)) slots,
    all filled.  As nothing is ever pushed to [discovered], the series of
    visited counts handed to the chart is constantly zero. *)
Theorem progress_is_a_bounded_window (pf : Platform) (n : Net) (es : list Visit.Event) :
  let st := Visit.run pf es (Visit.loaded n) in
  length (Visit.progress st) = Nat.max 1 (Nat.min (Visit.frames es) 100)
  /\ Forall is_Some (Visit.progress st)
  /\ fst (Visit.series st) = replicate (length (Visit.progress st)) (Some 0).
Proof.
  intros st.
  destruct (run_progressInv pf es 0 (Visit.loaded n)) as (_ & _ & Hlen & Hall);
    [lia | apply loaded_progressInv |].
  fold st in Hlen, Hall. split; [lia|]. split.
  - eapply Forall_impl; [exact Hall|]. intros o (p & -> & _). now exists p.
  - unfold Visit.series. simpl. clear Hlen.
    induction Hall as [|o l (p & -> & Hp) _ IH]; [reflexivity|].
    simpl. now rewrite Hp, IH.
Qed.

(** X24: while fewer than 2^53 frames have been drawn, a frame stores its
    point in slot (number of earlier frames) mod 100, and the point counts
    the distinct addresses handed to the handler so far, with zero visited. *)
Theorem frame_writes_its_slot (pf : Platform) (n : Net) (es : list Visit.Event) :
  Z.of_nat (Visit.frames es) < 2 ^ 53 ->
  Visit.progress (Visit.run pf (es ++ [Visit.Frame]) (Visit.loaded n))
    !! (Visit.frames es mod 100)%nat
  = Some (Some {| Visit.known :=
                    Z.of_nat (size (list_to_set (Visit.addresses es) : gset string));
                  Visit.visited := 0 |}).
Proof.
  intros Hf. unfold Visit.run. rewrite fold_left_app. simpl.
  fold (Visit.run pf es (Visit.loaded n)).
  destruct (run_progressInv pf es 0 (Visit.loaded n)) as (Hd & Hi & _ & _);
    [lia | apply loaded_progressInv |].
  destruct (loaded_run_known pf n es) as [Hk _].
  rewrite Hd, Hi, Hk. simpl length.
  rewrite Z.add_0_l, Z.min_l by lia.
  replace (Z.to_nat (Z.of_nat (Visit.frames es) mod 100))
    with (Visit.frames es mod 100)%nat
    by (change 100 with (Z.of_nat 100); rewrite <- Nat2Z.inj_mod; lia).
  apply assign_lookup.
Qed.

Lemma frame_writes_its_slot_witness :
  Visit.progress
    (Visit.run Sample.platform
       [Visit.Runs "https://lemmy.world"; Visit.Frame; Visit.Runs "lemmy.zip";
        Visit.Runs "https://lemmy.world"; Visit.Frame]
       (Visit.loaded []))
    !! 1%nat
  = Some (Some {| Visit.known := 2; Visit.visited := 0 |}).
Proof.
  apply (frame_writes_its_slot Sample.platform []
           [Visit.Runs "https://lemmy.world"; Visit.Frame; Visit.Runs "lemmy.zip";
            Visit.Runs "https://lemmy.world"]).
  vm_compute. reflexivity.
Defined.
